(** * The WebSocket relay between the browser and the OpenAI Realtime API

    A shallow embedding of the relay server (the [ws-relay] module whose
    entry point is [startWebSocketServer]): the session registry, the
    upstream connector [connectToOpenAI], the event translator
    [handleOpenAIEvent], the client dispatcher [handleClientMessage] and the
    listeners installed by [startWebSocketServer].

    The relay is event driven.  Its state is the [World] below: the process
    environment, the registry [sessions], the session objects, the sockets
    and the pending timeouts.  Every listener of the source is a computation
    in the state-and-exception monad [M]; the [ws] package and the Node event
    loop are the environment, which fires the [Event]s.

    The sample converter of the microphone capture,
    [AudioCapture.floatTo16BitPCM], is embedded beside it as a pure
    function. *)

From Stdlib Require Import ZArith QArith Qround String List Lia.
From stdpp Require Import base option list gmap strings.

Local Open Scope string_scope.
Set Warnings "-register-all".

(** ** JavaScript values

    [JSON.parse] gives the upstream events as [Record<string, unknown>]; the
    casts of the source ([as string], [as number]) are not checked when the
    program runs, so an event field is any JSON value, or [undefined] when the
    property is missing.  Numbers are the integers of the token counts. *)

Inductive Value : Type :=
| VUndefined
| VNull
| VBool (b : bool)
| VNum (n : Z)
| VStr (s : string)
| VArr (items : list Value)
| VObj (fields : list (string * Value)).

(** Truthiness, as [if (x)] and [x || y] test it. *)
Definition truthy (v : Value) : bool :=
  match v with
  | VUndefined | VNull => false
  | VBool b => b
  | VNum n => negb (n =? 0)%Z
  | VStr s => negb (s =? "")
  | VArr _ | VObj _ => true
  end.

(** [a || b] *)
Definition or_else (a b : Value) : Value := if truthy a then a else b.

(** [s || d] on strings: the empty string is falsy. *)
Definition str_or_else (s d : string) : string := if s =? "" then d else s.

Fixpoint assoc (k : string) (fields : list (string * Value)) : Value :=
  match fields with
  | [] => VUndefined
  | (k', v) :: rest => if k' =? k then v else assoc k rest
  end.

(** [v?.k]: reading a property the relay names ([type], [delta],
    [transcript], [usage], ...) off a value.  Only objects carry them;
    [null] and [undefined] short-circuit to [undefined]. *)
Definition opt_prop (v : Value) (k : string) : Value :=
  match v with
  | VObj fields => assoc k fields
  | _ => VUndefined
  end.

Definition nullish (v : Value) : bool :=
  match v with
  | VUndefined | VNull => true
  | _ => false
  end.

(** ** Messages *)

Module SessionConfig.
Record t : Type := mk {
  voice : string;
  prompt : string;
  inputCostPerMinute : Q;
  outputCostPerMinute : Q;
  agentSpeaksFirst : bool
}.
End SessionConfig.

(** [ClientMessage], as the dispatcher meets it.  The listener casts what
    [JSON.parse] returns to [ClientMessage] without a check, so besides the
    three messages of the protocol the dispatcher is handed every other
    parsed value: [Other] stands for a value that is not [null] and whose
    [type] is none of the three, such as [{}], [5] or [{type: 'bogus'}].
    The payloads of the three messages are taken as they are typed. *)
Inductive ClientMessage : Type :=
| SessionStart (config : SessionConfig.t)
| AudioInput (audio : string)
| SessionEnd
| Other.

Inductive Role : Type := user | assistant.

(** [ServerMessage].  The fields filled from an upstream event hold whatever
    value the event had there. *)
Inductive ServerMessage : Type :=
| SessionCreated (sessionId : string)
| SessionReady
| AudioOutput (audio : Value)
| TranscriptPartial (role : Role) (text itemId : Value)
| TranscriptFinal (role : Role) (text itemId : Value)
| UsageUpdate (inputTokens outputTokens audioInputMs audioOutputMs : Value)
| Error (message : Value)
| SessionEnded.

(** The three objects the relay serialises towards the upstream API. *)
Module Upstream.
Record TurnDetection : Type := mkTurnDetection {
  type : string;
  threshold : Q;
  prefix_padding_ms : Q;
  silence_duration_ms : Q
}.

Record Transcription : Type := mkTranscription { model : string }.

Record Session : Type := mkSession {
  modalities : list string;
  instructions : string;
  voice : string;
  input_audio_format : string;
  output_audio_format : string;
  input_audio_transcription : option Transcription;
  turn_detection : TurnDetection
}.

Inductive Message : Type :=
| SessionUpdate (session : Session)
| ResponseCreate (modalities : list string) (instructions : string)
| InputAudioBufferAppend (audio : string).
End Upstream.

(** ** Sockets, sessions and the world *)

Inductive ReadyState : Type := CONNECTING | OPEN | CLOSING | CLOSED.

Global Instance ReadyState_eq_dec : EqDecision ReadyState.
Proof. solve_decision. Defined.

(** [interface ClientSession].  Sockets are objects: the fields hold
    references into the socket stores of the world. *)
Record ClientSession : Type := mkSession {
  clientWs : nat;
  openaiWs : option nat;
  sessionId : string;
  config : option SessionConfig.t
}.

(** An upstream socket: its [readyState] and the session object its
    listeners were created for (the [session] captured by the closures of
    [connectToOpenAI]). *)
Record UpstreamSocket : Type := mkUpstream {
  readyState : ReadyState;
  owner : nat
}.

(** What the relay has written to its sockets, oldest first.  Serialisation
    ([JSON.stringify]) is left out: the log holds the message objects. *)
Inductive Output : Type :=
| ToClient (ws : nat) (message : ServerMessage)
| ToUpstream (ws : nat) (message : Upstream.Message).

Record World : Type := mkWorld {
  OPENAI_API_KEY : option string;      (* process.env.OPENAI_API_KEY *)
  sessions : gmap string nat;          (* const sessions = new Map() *)
  heap : list ClientSession;           (* the session objects *)
  clients : list ReadyState;           (* the client sockets *)
  upstreams : list UpstreamSocket;     (* the sockets opened to the API *)
  timers : list nat;                   (* pending setTimeout callbacks, by socket *)
  wire : list Output
}.

Definition set_sessions (f : gmap string nat -> gmap string nat) (w : World) : World :=
  mkWorld (OPENAI_API_KEY w) (f (sessions w)) (heap w) (clients w) (upstreams w) (timers w) (wire w).
Definition set_heap (f : list ClientSession -> list ClientSession) (w : World) : World :=
  mkWorld (OPENAI_API_KEY w) (sessions w) (f (heap w)) (clients w) (upstreams w) (timers w) (wire w).
Definition set_clients (f : list ReadyState -> list ReadyState) (w : World) : World :=
  mkWorld (OPENAI_API_KEY w) (sessions w) (heap w) (f (clients w)) (upstreams w) (timers w) (wire w).
Definition set_upstreams (f : list UpstreamSocket -> list UpstreamSocket) (w : World) : World :=
  mkWorld (OPENAI_API_KEY w) (sessions w) (heap w) (clients w) (f (upstreams w)) (timers w) (wire w).
Definition set_timers (f : list nat -> list nat) (w : World) : World :=
  mkWorld (OPENAI_API_KEY w) (sessions w) (heap w) (clients w) (upstreams w) (f (timers w)) (wire w).
Definition emit (o : Output) (w : World) : World :=
  mkWorld (OPENAI_API_KEY w) (sessions w) (heap w) (clients w) (upstreams w) (timers w) (wire w ++ [o])%list.

Definition set_openaiWs (h : option nat) (s : ClientSession) : ClientSession :=
  mkSession (clientWs s) h (sessionId s) (config s).
Definition set_config (c : option SessionConfig.t) (s : ClientSession) : ClientSession :=
  mkSession (clientWs s) (openaiWs s) (sessionId s) c.
Definition set_readyState (st : ReadyState) (u : UpstreamSocket) : UpstreamSocket :=
  mkUpstream st (owner u).

(** ** The monad of the listeners: state, and exceptions that keep the
    state reached when they were thrown. *)

Inductive Exn : Type := TypeError | SyntaxError | NotOpenError.

Inductive Result (A : Type) : Type :=
| Ok (a : A)
| Throw (e : Exn).
Arguments Ok {A} a.
Arguments Throw {A} e.

Definition M (A : Type) : Type := World -> Result A * World.

Definition ret {A} (a : A) : M A := fun w => (Ok a, w).
Definition bind {A B} (m : M A) (k : A -> M B) : M B :=
  fun w => match m w with
           | (Ok a, w') => k a w'
           | (Throw e, w') => (Throw e, w')
           end.
Definition throw {A} (e : Exn) : M A := fun w => (Throw e, w).
Definition gets {A} (f : World -> A) : M A := fun w => (Ok (f w), w).
Definition modify (f : World -> World) : M unit := fun w => (Ok tt, f w).
(** [try { m } catch (err) { h }] *)
Definition try_catch (m : M unit) (h : M unit) : M unit :=
  fun w => match m w with
           | (Ok a, w') => (Ok a, w')
           | (Throw _, w') => h w'
           end.
Definition when (b : bool) (m : M unit) : M unit := if b then m else ret tt.

Notation "'let*' x ':=' m 'in' k" := (bind m (fun x => k))
  (at level 10, x name, m at level 100, k at level 200, only parsing).
Notation "m >> k" := (bind m (fun _ => k))
  (at level 100, k at level 200, right associativity, only parsing).

(** [v.k]: as [opt_prop], but reading off [null] or [undefined] throws. *)
Definition prop (v : Value) (k : string) : M Value :=
  if nullish v then throw TypeError else ret (opt_prop v k).

(** [v?.includes(..)] and [v?.startsWith(..)] feed the log only, but the
    call itself is a TypeError on a value that has no such method. *)
Definition opt_includes (v : Value) : M unit :=
  match v with
  | VUndefined | VNull | VStr _ | VArr _ => ret tt
  | _ => throw TypeError
  end.

Definition opt_startsWith (v : Value) : M unit :=
  match v with
  | VUndefined | VNull | VStr _ => ret tt
  | _ => throw TypeError
  end.

(** ** The [ws] package, as far as the relay uses it *)

(** [new WebSocket(url, options)]: a socket in state [CONNECTING]. *)
Definition new_WebSocket (session : nat) : M nat :=
  fun w => (Ok (length (upstreams w)),
            set_upstreams (fun l => (l ++ [mkUpstream CONNECTING session])%list) w).

Definition ws_readyState (ws : nat) : M (option ReadyState) :=
  gets (fun w => readyState <$> upstreams w !! ws).

(** [ws.send(data)] writes when the socket is open.  On a socket that is
    not open the package throws or drops the data, depending on its version
    and on the state; the model takes the worse case, an exception. *)
Definition ws_send (ws : nat) (data : Upstream.Message) : M unit :=
  let* st := ws_readyState ws in
  match st with
  | Some OPEN => modify (emit (ToUpstream ws data))
  | Some _ => throw NotOpenError
  | None => ret tt
  end.

Definition close_state (st : ReadyState) : ReadyState :=
  match st with
  | CLOSED => CLOSED
  | _ => CLOSING
  end.

(** [ws.close()]: starts the closing handshake (or aborts the opening one);
    nothing happens on a closed socket. *)
Definition ws_close (ws : nat) : M unit :=
  modify (set_upstreams (alter (fun s => set_readyState (close_state (readyState s)) s) ws)).

(** The socket handed to the [connection] listener. *)
Definition accept : M nat :=
  fun w => (Ok (length (clients w)), set_clients (fun l => (l ++ [OPEN])%list) w).

Definition setTimeout (ws : nat) : M unit :=
  modify (set_timers (fun l => (l ++ [ws])%list)).

(** ** The relay *)

(** Runs [k] on the session object behind the reference; a listener only
    exists for a session that was created. *)
Definition with_session (session : nat) (k : ClientSession -> M unit) : M unit :=
  fun w => match heap w !! session with
           | Some s => k s w
           | None => (Ok tt, w)
           end.

(** A fresh session object. *)
Definition new_session (s : ClientSession) : M nat :=
  fun w => (Ok (length (heap w)), set_heap (fun l => (l ++ [s])%list) w).

Definition update_session (session : nat) (f : ClientSession -> ClientSession) : M unit :=
  modify (set_heap (alter f session)).

Definition sendToClient (ws : nat) (message : ServerMessage) : M unit :=
  let* st := gets (fun w => clients w !! ws) in
  if decide (st = Some OPEN) then modify (emit (ToClient ws message)) else ret tt.

(** [!apiKey] *)
Definition missing (apiKey : option string) : bool :=
  match apiKey with
  | Some k => k =? ""
  | None => true
  end.

Definition config_prompt (c : option SessionConfig.t) : string :=
  match c with
  | Some c => str_or_else (SessionConfig.prompt c) "You are a helpful assistant."
  | None => "You are a helpful assistant."
  end.

Definition config_voice (c : option SessionConfig.t) : string :=
  match c with
  | Some c => str_or_else (SessionConfig.voice c) "alloy"
  | None => "alloy"
  end.

Definition config_agentSpeaksFirst (c : option SessionConfig.t) : bool :=
  match c with
  | Some c => SessionConfig.agentSpeaksFirst c
  | None => false
  end.

Definition sessionUpdate (s : ClientSession) : Upstream.Message :=
  Upstream.SessionUpdate
    {| Upstream.modalities := ["text"; "audio"];
       Upstream.instructions := config_prompt (config s);
       Upstream.voice := config_voice (config s);
       Upstream.input_audio_format := "pcm16";
       Upstream.output_audio_format := "pcm16";
       Upstream.input_audio_transcription := Some {| Upstream.model := "whisper-1" |};
       Upstream.turn_detection :=
         {| Upstream.type := "server_vad";
            Upstream.threshold := 6 # 10;
            Upstream.prefix_padding_ms := 200 # 1;
            Upstream.silence_duration_ms := 700 # 1 |} |}.

Definition responseCreate : Upstream.Message :=
  Upstream.ResponseCreate ["text"; "audio"]
    "Greet the user warmly and ask how you can help them today. Keep it brief and friendly.".

Definition connectToOpenAI (session : nat) : M unit :=
  with_session session (fun s =>
    let* apiKey := gets OPENAI_API_KEY in
    if missing apiKey then
      sendToClient (clientWs s) (Error (VStr "OpenAI API key not configured"))
    else
      let* openaiWs := new_WebSocket session in
      update_session session (set_openaiWs (Some openaiWs))).

(** [openaiWs.on('open', ...)] *)
Definition onOpen (session openaiWs : nat) : M unit :=
  with_session session (fun s =>
    ws_send openaiWs (sessionUpdate s) >>
    sendToClient (clientWs s) SessionReady >>
    when (config_agentSpeaksFirst (config s)) (setTimeout openaiWs)).

(** The callback given to [setTimeout] in the open listener. *)
Definition onTimeout (openaiWs : nat) : M unit :=
  let* st := ws_readyState openaiWs in
  if decide (st = Some OPEN) then ws_send openaiWs responseCreate else ret tt.

Definition ignored (eventType : string) : bool :=
  (eventType =? "session.created") || (eventType =? "session.updated")
  || (eventType =? "input_audio_buffer.speech_started")
  || (eventType =? "input_audio_buffer.speech_stopped")
  || (eventType =? "input_audio_buffer.committed")
  || (eventType =? "response.created")
  || (eventType =? "response.output_item.added")
  || (eventType =? "response.output_item.done")
  || (eventType =? "response.content_part.added")
  || (eventType =? "response.content_part.done")
  || (eventType =? "rate_limits.updated")
  || (eventType =? "conversation.item.created").

Definition handleOpenAIEvent (session : nat) (event : Value) : M unit :=
  let* eventType := prop event "type" in
  opt_includes eventType >>
  with_session session (fun s =>
    match eventType with
    | VStr t =>
      if t =? "response.audio.delta" then
        let* delta := prop event "delta" in
        when (truthy delta) (sendToClient (clientWs s) (AudioOutput delta))
      else if t =? "response.audio_transcript.delta" then
        let* delta := prop event "delta" in
        let* itemId := prop event "item_id" in
        when (truthy delta)
             (sendToClient (clientWs s)
                (TranscriptPartial assistant delta (or_else itemId (VStr "unknown"))))
      else if t =? "response.audio_transcript.done" then
        let* transcript := prop event "transcript" in
        let* itemId := prop event "item_id" in
        when (truthy transcript)
             (sendToClient (clientWs s)
                (TranscriptFinal assistant transcript (or_else itemId (VStr "unknown"))))
      else if t =? "conversation.item.input_audio_transcription.completed" then
        let* transcript := prop event "transcript" in
        let* itemId := prop event "item_id" in
        when (truthy transcript)
             (sendToClient (clientWs s)
                (TranscriptFinal user transcript (or_else itemId (VStr "unknown"))))
      else if t =? "response.done" then
        let* response := prop event "response" in
        let usage := opt_prop response "usage" in
        if truthy usage then
          let* inputTokenDetails := prop usage "input_token_details" in
          let* outputTokenDetails := prop usage "output_token_details" in
          let* input_tokens := prop usage "input_tokens" in
          let* output_tokens := prop usage "output_tokens" in
          sendToClient (clientWs s)
            (UsageUpdate
               (or_else input_tokens (VNum 0))
               (or_else output_tokens (VNum 0))
               (or_else (opt_prop inputTokenDetails "audio_tokens") (VNum 0))
               (or_else (opt_prop outputTokenDetails "audio_tokens") (VNum 0)))
        else ret tt
      else if t =? "error" then
        let* errorEvent := prop event "error" in
        sendToClient (clientWs s)
          (Error (or_else (opt_prop errorEvent "message") (VStr "Unknown error from AI")))
      else if ignored t then ret tt
      else opt_startsWith eventType
    | _ => opt_startsWith eventType
    end).

(** [openaiWs.on('message', ...)]; [None] is data that [JSON.parse] rejects. *)
Definition onUpstreamMessage (session : nat) (data : option Value) : M unit :=
  try_catch
    match data with
    | Some event => handleOpenAIEvent session event
    | None => throw SyntaxError
    end
    (ret tt).

(** [openaiWs.on('error', ...)] *)
Definition onUpstreamError (session : nat) : M unit :=
  with_session session (fun s =>
    sendToClient (clientWs s) (Error (VStr "Connection to AI failed"))).

(** [openaiWs.on('close', ...)] *)
Definition onUpstreamClose (session : nat) : M unit :=
  with_session session (fun s =>
    sendToClient (clientWs s) SessionEnded >>
    update_session session (set_openaiWs None)).

Definition handleClientMessage (session : nat) (message : ClientMessage) : M unit :=
  match message with
  | SessionStart config =>
    update_session session (set_config (Some config)) >>
    connectToOpenAI session
  | AudioInput audio =>
    with_session session (fun s =>
      match openaiWs s with
      | Some ws =>
        let* st := ws_readyState ws in
        if decide (st = Some OPEN)
        then ws_send ws (Upstream.InputAudioBufferAppend audio)
        else ret tt
      | None => ret tt
      end)
  | SessionEnd =>
    with_session session (fun s =>
      match openaiWs s with
      | Some ws => ws_close ws >> update_session session (set_openaiWs None)
      | None => ret tt
      end >>
      sendToClient (clientWs s) SessionEnded)
  | Other => ret tt   (* the switch has no default case *)
  end.

(** [wss.on('connection', ...)]: the socket the server accepted is open; the
    identifier is the one [generateSessionId] drew. *)
Definition onConnection (sessionId : string) : M unit :=
  let* ws := accept in
  let* session := new_session (mkSession ws None sessionId None) in
  modify (set_sessions (insert sessionId session)) >>
  sendToClient ws (SessionCreated sessionId).

(** [ws.on('message', ...)].  The frame is [None] when the [try] block
    throws before the dispatcher's switch: the text is not JSON, or it is the
    JSON [null], which has no [type] to read. *)
Definition onClientMessage (session : nat) (data : option ClientMessage) : M unit :=
  with_session session (fun s =>
    try_catch
      match data with
      | Some message => handleClientMessage session message
      | None => throw SyntaxError
      end
      (sendToClient (clientWs s) (Error (VStr "Invalid message format")))).

(** [ws.on('close', ...)] *)
Definition onClientClose (session : nat) : M unit :=
  with_session session (fun s =>
    match openaiWs s with
    | Some ws => ws_close ws
    | None => ret tt
    end >>
    modify (set_sessions (delete (sessionId s)))).

(** ** The environment

    What the [ws] package and the event loop do around the listeners: a
    socket opens once, out of [CONNECTING]; an error leaves it closing; the
    [close] event finds it closed; a timeout fires once.  A client socket is
    open when it is accepted, closing once the peer's close frame has
    arrived, and closed when its [close] event is emitted. *)

Inductive Event : Type :=
| Connection (sessionId : string)
| ClientData (session : nat) (data : option ClientMessage)
| ClientClosing (session : nat)
| ClientClosed (session : nat)
| ClientErrored (session : nat)
| UpstreamOpened (ws : nat)
| UpstreamData (ws : nat) (data : option Value)
| UpstreamErrored (ws : nat)
| UpstreamClosed (ws : nat)
| TimerFired (ws : nat).

Definition with_upstream (ws : nat) (k : UpstreamSocket -> M unit) : M unit :=
  fun w => match upstreams w !! ws with
           | Some s => k s w
           | None => (Ok tt, w)
           end.

Definition become (st : ReadyState) (ws : nat) (w : World) : World :=
  set_upstreams (alter (set_readyState st) ws) w.

(** The handshake finished: [CONNECTING] becomes [OPEN].  The answer tells
    whether the [open] event is emitted. *)
Definition ws_opens (ws : nat) : M bool :=
  fun w => match upstreams w !! ws with
           | Some s => if decide (readyState s = CONNECTING)
                       then (Ok true, become OPEN ws w)
                       else (Ok false, w)
           | None => (Ok false, w)
           end.

(** A failure on a socket that is not closed yet leaves it closing and
    emits [error]. *)
Definition ws_fails (ws : nat) : M bool :=
  fun w => match upstreams w !! ws with
           | Some s => if decide (readyState s = CLOSED)
                       then (Ok false, w)
                       else (Ok true, become CLOSING ws w)
           | None => (Ok false, w)
           end.

(** The connection is gone: the socket is closed and emits [close], once. *)
Definition ws_closes (ws : nat) : M bool :=
  fun w => match upstreams w !! ws with
           | Some s => if decide (readyState s = CLOSED)
                       then (Ok false, w)
                       else (Ok true, become CLOSED ws w)
           | None => (Ok false, w)
           end.

(** The client's close frame arrived, or its connection failed: the socket
    is closing from then on.  No listener of the relay runs. *)
Definition client_closing (ws : nat) : M unit :=
  modify (set_clients (alter close_state ws)).

(** The client's connection is gone: its socket is closed when [close] is
    emitted. *)
Definition client_closes (ws : nat) : M unit :=
  modify (set_clients (<[ws := CLOSED]>)).

Fixpoint remove_first (x : nat) (l : list nat) : list nat :=
  match l with
  | [] => []
  | y :: l => if decide (x = y) then l else y :: remove_first x l
  end.

(** A pending timeout comes due and leaves the queue. *)
Definition timer_due (ws : nat) : M bool :=
  fun w => if decide (ws ∈ timers w)
           then (Ok true, set_timers (remove_first ws) w)
           else (Ok false, w).

Definition fire (e : Event) : M unit :=
  match e with
  | Connection sessionId => onConnection sessionId
  | ClientData session data => onClientMessage session data
  | ClientClosing session =>
    with_session session (fun s => client_closing (clientWs s))
  | ClientClosed session =>
    with_session session (fun s =>
      client_closes (clientWs s) >> onClientClose session)
  | ClientErrored session => ret tt
  | UpstreamOpened ws =>
    with_upstream ws (fun s =>
      let* emitted := ws_opens ws in
      when emitted (onOpen (owner s) ws))
  | UpstreamData ws data =>
    with_upstream ws (fun s => onUpstreamMessage (owner s) data)
  | UpstreamErrored ws =>
    with_upstream ws (fun s =>
      let* emitted := ws_fails ws in
      when emitted (onUpstreamError (owner s)))
  | UpstreamClosed ws =>
    with_upstream ws (fun s =>
      let* emitted := ws_closes ws in
      when emitted (onUpstreamClose (owner s)))
  | TimerFired ws =>
    let* emitted := timer_due ws in
    when emitted (onTimeout ws)
  end.

Fixpoint run (events : list Event) : M unit :=
  match events with
  | [] => ret tt
  | e :: events => fire e >> run events
  end.

(** The relay as [startWebSocketServer] leaves it: nothing registered. *)
Definition boot (apiKey : option string) : World :=
  mkWorld apiKey ∅ [] [] [] [] [].

(** ** Properties of computations *)

(** Every run of [m] moves the world along [R]. *)
Definition moves (R : relation World) {A} (m : M A) : Prop :=
  forall w, R w (snd (m w)).

(** [m] never throws. *)
Definition safe {A} (m : M A) : Prop :=
  forall w, exists a, fst (m w) = Ok a.

(** The body of the two finalized-transcript cases of [handleOpenAIEvent],
    which differ in the role only. *)
Definition transcript_final (ws : nat) (role : Role) (event : Value) : M unit :=
  let* transcript := prop event "transcript" in
  let* itemId := prop event "item_id" in
  when (truthy transcript)
       (sendToClient ws (TranscriptFinal role transcript (or_else itemId (VStr "unknown")))).

(** What the relay wrote to one client socket, and to one upstream socket. *)
Definition to_client (ws : nat) (o : Output) : option ServerMessage :=
  match o with
  | ToClient ws' m => if decide (ws' = ws) then Some m else None
  | ToUpstream _ _ => None
  end.

Definition to_upstream (ws : nat) (o : Output) : option Upstream.Message :=
  match o with
  | ToUpstream ws' m => if decide (ws' = ws) then Some m else None
  | ToClient _ _ => None
  end.

Definition client_inbox (ws : nat) (w : World) : list ServerMessage :=
  omap (to_client ws) (wire w).

Definition upstream_inbox (ws : nat) (w : World) : list Upstream.Message :=
  omap (to_upstream ws) (wire w).

(** The client sockets only ever close, and what is written to a client
    goes to a socket that was open (or not yet accepted) to begin with. *)
Definition client_guard (w w' : World) : Prop :=
  (forall c st, clients w !! c = Some st ->
                clients w' !! c = Some st \/ clients w' !! c = Some CLOSING \/
                clients w' !! c = Some CLOSED) /\
  exists new, wire w' = (wire w ++ new)%list /\
    forall c m, In (ToClient c m) new ->
                clients w !! c = Some OPEN \/ clients w !! c = None.

(** An upstream socket on which [close()] has been called, or that has
    closed. *)
Definition closed_link (ws : nat) (w : World) : Prop :=
  exists up, upstreams w !! ws = Some up /\
             (readyState up = CLOSING \/ readyState up = CLOSED).

(** Once a link is closing it stays so, and nothing more is written to it. *)
Definition link_silent (ws : nat) (w w' : World) : Prop :=
  closed_link ws w ->
  closed_link ws w' /\ upstream_inbox ws w' = upstream_inbox ws w.

(** ** Sample runs *)

Definition demo_config (first : bool) : SessionConfig.t :=
  SessionConfig.mk "shimmer" "Be brief." (6 # 100) (24 # 100) first.

(** A client connected. *)
Definition connected (apiKey : option string) : World :=
  snd (run [Connection "session_1"] (boot apiKey)).

(** A client connected and started a session; the upstream socket is still
    connecting. *)
Definition connecting (first : bool) : World :=
  snd (run [Connection "session_1";
            ClientData 0 (Some (SessionStart (demo_config first)))]
         (boot (Some "sk-test"))).

(** The upstream socket opened: the session is ready, and the greeting is
    pending when asked for. *)
Definition ready (first : bool) : World :=
  snd (fire (UpstreamOpened 0) (connecting first)).

(** The client starts again while the greeting of the first connection is
    pending: a second upstream socket replaces the first in the session. *)
Definition restarted : World :=
  snd (fire (ClientData 0 (Some (SessionStart (demo_config true)))) (ready true)).

(** The client has gone. *)
Definition abandoned : World :=
  snd (fire (ClientClosed 0) (ready true)).

(** The event of the usage example: [response.done] with usage
    [{input_tokens: 120, output_tokens: 45, input_token_details: {audio_tokens: 30}}]. *)
Definition usage_example : Value :=
  VObj [("type", VStr "response.done");
        ("response",
         VObj [("usage",
                VObj [("input_tokens", VNum 120);
                      ("output_tokens", VNum 45);
                      ("input_token_details", VObj [("audio_tokens", VNum 30)])])])].

(** The session object of the sample runs, once started. *)
Definition demo_session (first : bool) : ClientSession :=
  mkSession 0 (Some 0) "session_1" (Some (demo_config first)).

(** A finalized assistant transcript. *)
Definition transcript_example : Value :=
  VObj [("type", VStr "response.audio_transcript.done");
        ("transcript", VStr "Hello, how can I help?");
        ("item_id", VStr "item_7")].

(** ** The listeners as plain state transformers

    The same listeners once more, without the monad: what each event does
    to the world, written as one function.  [fire_effect] below proves that
    the listeners do exactly this and throw nothing; the invariants of the
    relay are then proved over [effect]. *)

(** [sendToClient(ws, message)] *)
Definition send (ws : nat) (message : ServerMessage) (w : World) : World :=
  if decide (clients w !! ws = Some OPEN) then emit (ToClient ws message) w else w.

(** [sendToClient(session.clientWs, message)] *)
Definition tell (session : nat) (message : ServerMessage) (w : World) : World :=
  match heap w !! session with
  | Some s => send (clientWs s) message w
  | None => w
  end.

Definition close_link (ws : nat) (w : World) : World :=
  set_upstreams (alter (fun s => set_readyState (close_state (readyState s)) s) ws) w.

Definition set_handle (session : nat) (h : option nat) (w : World) : World :=
  set_heap (alter (set_openaiWs h) session) w.

(** The [switch] of [handleOpenAIEvent] as a mapping from an upstream event
    to the message it makes the relay send, if any. *)
Definition translate (event : Value) : option ServerMessage :=
  match opt_prop event "type" with
  | VStr t =>
    if t =? "response.audio.delta" then
      let delta := opt_prop event "delta" in
      if truthy delta then Some (AudioOutput delta) else None
    else if t =? "response.audio_transcript.delta" then
      let delta := opt_prop event "delta" in
      if truthy delta
      then Some (TranscriptPartial assistant delta
                   (or_else (opt_prop event "item_id") (VStr "unknown")))
      else None
    else if t =? "response.audio_transcript.done" then
      let transcript := opt_prop event "transcript" in
      if truthy transcript
      then Some (TranscriptFinal assistant transcript
                   (or_else (opt_prop event "item_id") (VStr "unknown")))
      else None
    else if t =? "conversation.item.input_audio_transcription.completed" then
      let transcript := opt_prop event "transcript" in
      if truthy transcript
      then Some (TranscriptFinal user transcript
                   (or_else (opt_prop event "item_id") (VStr "unknown")))
      else None
    else if t =? "response.done" then
      let usage := opt_prop (opt_prop event "response") "usage" in
      if truthy usage
      then Some (UsageUpdate
                   (or_else (opt_prop usage "input_tokens") (VNum 0))
                   (or_else (opt_prop usage "output_tokens") (VNum 0))
                   (or_else (opt_prop (opt_prop usage "input_token_details") "audio_tokens")
                            (VNum 0))
                   (or_else (opt_prop (opt_prop usage "output_token_details") "audio_tokens")
                            (VNum 0)))
      else None
    else if t =? "error" then
      Some (Error (or_else (opt_prop (opt_prop event "error") "message")
                           (VStr "Unknown error from AI")))
    else None
  | _ => None
  end.

Definition effect (e : Event) (w : World) : World :=
  match e with
  | Connection sessionId =>
    let ws := length (clients w) in
    let session := length (heap w) in
    emit (ToClient ws (SessionCreated sessionId))
      (set_sessions (insert sessionId session)
         (set_heap (fun l => (l ++ [mkSession ws None sessionId None])%list)
            (set_clients (fun l => (l ++ [OPEN])%list) w)))
  | ClientData session None =>
    tell session (Error (VStr "Invalid message format")) w
  | ClientData session (Some (SessionStart config)) =>
    match heap w !! session with
    | Some s =>
      let w1 := set_heap (alter (set_config (Some config)) session) w in
      if missing (OPENAI_API_KEY w)
      then send (clientWs s) (Error (VStr "OpenAI API key not configured")) w1
      else set_handle session (Some (length (upstreams w)))
             (set_upstreams (fun l => (l ++ [mkUpstream CONNECTING session])%list) w1)
    | None => w
    end
  | ClientData session (Some (AudioInput audio)) =>
    match heap w !! session with
    | Some s =>
      match openaiWs s with
      | Some ws =>
        if decide (readyState <$> upstreams w !! ws = Some OPEN)
        then emit (ToUpstream ws (Upstream.InputAudioBufferAppend audio)) w
        else w
      | None => w
      end
    | None => w
    end
  | ClientData session (Some SessionEnd) =>
    match heap w !! session with
    | Some s =>
      send (clientWs s) SessionEnded
        match openaiWs s with
        | Some ws => set_handle session None (close_link ws w)
        | None => w
        end
    | None => w
    end
  | ClientData session (Some Other) => w
  | ClientClosing session =>
    match heap w !! session with
    | Some s => set_clients (alter close_state (clientWs s)) w
    | None => w
    end
  | ClientClosed session =>
    match heap w !! session with
    | Some s =>
      let w1 := set_clients (<[clientWs s := CLOSED]>) w in
      set_sessions (delete (sessionId s))
        match openaiWs s with
        | Some ws => close_link ws w1
        | None => w1
        end
    | None => w
    end
  | ClientErrored session => w
  | UpstreamOpened ws =>
    match upstreams w !! ws with
    | Some up =>
      if decide (readyState up = CONNECTING) then
        let w1 := become OPEN ws w in
        match heap w !! owner up with
        | Some s =>
          (if config_agentSpeaksFirst (config s)
           then set_timers (fun l => (l ++ [ws])%list) else id)
            (send (clientWs s) SessionReady
               (emit (ToUpstream ws (sessionUpdate s)) w1))
        | None => w1
        end
      else w
    | None => w
    end
  | UpstreamData ws data =>
    match upstreams w !! ws, data with
    | Some up, Some event =>
      match translate event with
      | Some message => tell (owner up) message w
      | None => w
      end
    | _, _ => w
    end
  | UpstreamErrored ws =>
    match upstreams w !! ws with
    | Some up =>
      if decide (readyState up = CLOSED) then w
      else tell (owner up) (Error (VStr "Connection to AI failed")) (become CLOSING ws w)
    | None => w
    end
  | UpstreamClosed ws =>
    match upstreams w !! ws with
    | Some up =>
      if decide (readyState up = CLOSED) then w
      else set_handle (owner up) None
             (tell (owner up) SessionEnded (become CLOSED ws w))
    | None => w
    end
  | TimerFired ws =>
    if decide (ws ∈ timers w) then
      let w1 := set_timers (remove_first ws) w in
      if decide (readyState <$> upstreams w !! ws = Some OPEN)
      then emit (ToUpstream ws responseCreate) w1
      else w1
    else w
  end.

(** The fields of a session object that no listener assigns. *)
Definition ids (s : ClientSession) : nat * string := (clientWs s, sessionId s).

(** The registry holds live sessions only: every entry leads to a session
    object that carries the identifier of the entry and whose client socket
    has not emitted [close]: the socket is open or closing, not closed.
    (Session objects and client sockets are created together, so they share
    their references.) *)
Definition registry_live (w : World) : Prop :=
  length (heap w) = length (clients w) /\
  (forall r s, heap w !! r = Some s -> clientWs s = r) /\
  (forall sid r, sessions w !! sid = Some r ->
     exists s st, heap w !! r = Some s /\ sessionId s = sid /\
                  clients w !! clientWs s = Some st /\
                  (st = OPEN \/ st = CLOSING)).

Definition is_update (m : Upstream.Message) : bool :=
  match m with
  | Upstream.SessionUpdate _ => true
  | _ => false
  end.

Definition is_greeting (m : Upstream.Message) : bool :=
  match m with
  | Upstream.ResponseCreate _ _ => true
  | _ => false
  end.

(** What an upstream socket may have been sent: nothing, or the negotiation
    first and then audio with at most one greeting in it. *)
Definition negotiated (l : list Upstream.Message) : Prop :=
  match l with
  | [] => True
  | m :: rest =>
    is_update m = true /\
    Forall (fun m => is_update m = false) rest /\
    length (filter (fun m => is_greeting m = true) rest) <= 1
  end.

(** How a socket may change under an event that neither creates nor opens
    it: it keeps its session and either keeps its state or closes. *)
Definition link_le (o o' : option UpstreamSocket) : Prop :=
  match o, o' with
  | None, None => True
  | Some up, Some up' =>
    owner up' = owner up /\
    (readyState up' = readyState up \/ readyState up' = CLOSING
     \/ readyState up' = CLOSED)
  | _, _ => False
  end.

(** The invariant behind it, socket by socket.  A socket that is still
    connecting, or not yet created, has been sent nothing and has no greeting
    pending; an open socket has been sent its negotiation; and a greeting is
    pending or sent at most once. *)
Definition socket_ok (w : World) (u : nat) : Prop :=
  let inbox := upstream_inbox u w in
  let pending := count_occ Nat.eq_dec (timers w) u in
  negotiated inbox /\
  length (filter (fun m => is_greeting m = true) inbox) + pending <= 1 /\
  match upstreams w !! u with
  | None => inbox = [] /\ pending = 0
  | Some up =>
    is_Some (heap w !! owner up) /\
    (readyState up = CONNECTING -> inbox = [] /\ pending = 0) /\
    (readyState up = OPEN -> inbox <> [])
  end.

Definition is_created (m : ServerMessage) : bool :=
  match m with
  | SessionCreated _ => true
  | _ => false
  end.

(** What a client has been sent, session by session: the session object and
    its client socket share their reference, and the socket was sent
    [session.created] with the identifier of the session first, and never
    again. *)
Definition client_ok (w : World) (c : nat) : Prop :=
  match heap w !! c with
  | None => client_inbox c w = [] /\ clients w !! c = None
  | Some s =>
    clientWs s = c /\ is_Some (clients w !! c) /\
    exists rest, client_inbox c w = SessionCreated (sessionId s) :: rest /\
                 Forall (fun m => is_created m = false) rest
  end.

(** The [type]s the switch of [handleOpenAIEvent] has a case for. *)
Definition handled_types : list string :=
  ["response.audio.delta"; "response.audio_transcript.delta";
   "response.audio_transcript.done";
   "conversation.item.input_audio_transcription.completed";
   "response.done"; "error"].

(** ** The sample converter of the microphone capture

    [AudioCapture.floatTo16BitPCM] turns the samples of the audio callback, a
    [Float32Array], into signed 16-bit PCM.  An element of a [Float32Array]
    read in JavaScript is a Number: not-a-number, an infinity, or a finite
    value.  Finite values are kept as rationals.  On the values a
    [Float32Array] holds every operation of the converter is exact (two
    comparisons; a product with [0x8000], a power of two; a product of a
    24-bit significand with the 15-bit [0x7fff], which fits the 53 bits of a
    double), so no rounding is modelled. *)

Inductive Number : Type :=
| NaN
| Infinity (negative : bool)
| Real (q : Q).

(** [Math.min(a, b)] *)
Definition Math_min (a b : Number) : Number :=
  match a, b with
  | NaN, _ | _, NaN => NaN
  | Infinity true, _ | _, Infinity true => Infinity true
  | Infinity false, y => y
  | x, Infinity false => x
  | Real p, Real q => Real (if Qle_bool p q then p else q)
  end.

(** [Math.max(a, b)] *)
Definition Math_max (a b : Number) : Number :=
  match a, b with
  | NaN, _ | _, NaN => NaN
  | Infinity false, _ | _, Infinity false => Infinity false
  | Infinity true, y => y
  | x, Infinity true => x
  | Real p, Real q => Real (if Qle_bool p q then q else p)
  end.

(** [s < 0]: false on not-a-number. *)
Definition negative_number (s : Number) : bool :=
  match s with
  | NaN => false
  | Infinity negative => negative
  | Real q => negb (Qle_bool 0 q)
  end.

(** [s * k] for a positive integer constant [k]. *)
Definition times (s : Number) (k : Z) : Number :=
  match s with
  | NaN => NaN
  | Infinity negative => Infinity negative
  | Real q => Real (q * inject_Z k)
  end.

(** The integer part of a rational, rounding towards zero. *)
Definition truncate (q : Q) : Z :=
  if Qle_bool 0 q then Qfloor q else Qceiling q.

(** The conversion a store into an [Int16Array] applies (ToInt16):
    not-a-number and the infinities become 0, a finite value is truncated and
    taken modulo 2^16 into the signed range. *)
Definition ToInt16 (v : Number) : Z :=
  match v with
  | NaN | Infinity _ => 0
  | Real q =>
      let int16bit := (truncate q mod 65536)%Z in
      if (32768 <=? int16bit)%Z then (int16bit - 65536)%Z else int16bit
  end.

(** The body of the loop, for one sample:
    [s = Math.max(-1, Math.min(1, x))], then
    [s < 0 ? s * 0x8000 : s * 0x7fff] stored into the [Int16Array]. *)
Definition pcm16_of (x : Number) : Z :=
  let s := Math_max (Real (-1)) (Math_min (Real 1) x) in
  ToInt16 (if negative_number s then times s 0x8000 else times s 0x7fff).

(** The loop: [int16Array] starts out as zeros, of the length of the input,
    and slot [i] is written at step [i]. *)
Definition floatTo16BitPCM (float32Array : list Number) : list Z :=
  foldl (fun int16Array i =>
           match float32Array !! i with
           | Some x => <[i := pcm16_of x]> int16Array
           | None => int16Array
           end)
        (replicate (length float32Array) 0%Z)
        (seq 0 (length float32Array)).

(** * Proofs *)

(** ** Transition invariants

    A preorder on worlds that the primitive operations respect is respected
    by every listener, by every event and by every run. *)

Section Moves.
Variable R : relation World.
Context `{!PreOrder R}.

Lemma moves_ret {A} (a : A) : moves R (ret a).
Proof. intros w. simpl. reflexivity. Qed.

Lemma moves_throw {A} (e : Exn) : moves R (@throw A e).
Proof. intros w. simpl. reflexivity. Qed.

Lemma moves_gets {A} (f : World -> A) : moves R (gets f).
Proof. intros w. simpl. reflexivity. Qed.

Lemma moves_bind {A B} (m : M A) (k : A -> M B) :
  moves R m -> (forall a, moves R (k a)) -> moves R (bind m k).
Proof.
  intros Hm Hk w. unfold bind. specialize (Hm w).
  destruct (m w) as [[a|e] w']; simpl in *; [|done].
  etrans; [exact Hm|apply Hk].
Qed.

Lemma moves_try_catch (m h : M unit) :
  moves R m -> moves R h -> moves R (try_catch m h).
Proof.
  intros Hm Hh w. unfold try_catch. specialize (Hm w).
  destruct (m w) as [[a|e] w']; simpl in *; [done|].
  etrans; [exact Hm|apply Hh].
Qed.

Lemma moves_when (b : bool) (m : M unit) : moves R m -> moves R (when b m).
Proof. destruct b; simpl; [done|]. intros _. apply moves_ret. Qed.

Lemma moves_with_session (r : nat) (k : ClientSession -> M unit) :
  (forall s, moves R (k s)) -> moves R (with_session r k).
Proof.
  intros Hk w. unfold with_session. destruct (heap w !! r); [apply Hk|].
  simpl. reflexivity.
Qed.

Lemma moves_with_upstream (ws : nat) (k : UpstreamSocket -> M unit) :
  (forall s, moves R (k s)) -> moves R (with_upstream ws k).
Proof.
  intros Hk w. unfold with_upstream. destruct (upstreams w !! ws); [apply Hk|].
  simpl. reflexivity.
Qed.

Lemma moves_prop (v : Value) (k : string) : moves R (prop v k).
Proof. unfold prop. destruct (nullish v); [apply moves_throw|apply moves_ret]. Qed.

Lemma moves_opt_includes (v : Value) : moves R (opt_includes v).
Proof. destruct v; simpl; first [apply moves_throw|apply moves_ret]. Qed.

Lemma moves_opt_startsWith (v : Value) : moves R (opt_startsWith v).
Proof. destruct v; simpl; first [apply moves_throw|apply moves_ret]. Qed.

Hypothesis R_sendToClient : forall ws m, moves R (sendToClient ws m).
Hypothesis R_ws_send : forall ws d, moves R (ws_send ws d).
Hypothesis R_ws_close : forall ws, moves R (ws_close ws).
Hypothesis R_update_session : forall r f, moves R (update_session r f).
Hypothesis R_new_WebSocket : forall r, moves R (new_WebSocket r).
Hypothesis R_setTimeout : forall ws, moves R (setTimeout ws).
Hypothesis R_set_sessions : forall f, moves R (modify (set_sessions f)).

Ltac moves_step :=
  first
    [ apply moves_ret | apply moves_throw | apply moves_gets | apply moves_prop
    | apply moves_opt_includes | apply moves_opt_startsWith
    | apply R_sendToClient | apply R_ws_send | apply R_ws_close
    | apply R_update_session | apply R_new_WebSocket | apply R_setTimeout
    | apply R_set_sessions
    | apply moves_when | apply moves_try_catch
    | apply moves_with_session; intros ?
    | apply moves_with_upstream; intros ?
    | apply moves_bind; [|intros ?]
    | case_match ].

Lemma moves_handleOpenAIEvent (r : nat) (event : Value) :
  moves R (handleOpenAIEvent r event).
Proof. unfold handleOpenAIEvent. repeat moves_step. Qed.

Lemma moves_connectToOpenAI (r : nat) : moves R (connectToOpenAI r).
Proof. unfold connectToOpenAI. repeat moves_step. Qed.

Lemma moves_handleClientMessage (r : nat) (message : ClientMessage) :
  moves R (handleClientMessage r message).
Proof.
  destruct message; simpl; repeat first [apply moves_connectToOpenAI|moves_step].
Qed.

Lemma moves_onOpen (r ws : nat) : moves R (onOpen r ws).
Proof. unfold onOpen. repeat moves_step. Qed.

Lemma moves_onTimeout (ws : nat) : moves R (onTimeout ws).
Proof. unfold onTimeout, ws_readyState. repeat moves_step. Qed.

Lemma moves_onUpstreamMessage (r : nat) (data : option Value) :
  moves R (onUpstreamMessage r data).
Proof.
  unfold onUpstreamMessage.
  destruct data; repeat first [apply moves_handleOpenAIEvent|moves_step].
Qed.

Lemma moves_onUpstreamError (r : nat) : moves R (onUpstreamError r).
Proof. unfold onUpstreamError. repeat moves_step. Qed.

Lemma moves_onUpstreamClose (r : nat) : moves R (onUpstreamClose r).
Proof. unfold onUpstreamClose. repeat moves_step. Qed.

Lemma moves_onClientMessage (r : nat) (data : option ClientMessage) :
  moves R (onClientMessage r data).
Proof.
  unfold onClientMessage.
  destruct data; repeat first [apply moves_handleClientMessage|moves_step].
Qed.

Lemma moves_onClientClose (r : nat) : moves R (onClientClose r).
Proof. unfold onClientClose. repeat moves_step. Qed.

Hypothesis R_accept : moves R accept.
Hypothesis R_new_session : forall s, moves R (new_session s).
Hypothesis R_client_closing : forall ws, moves R (client_closing ws).
Hypothesis R_client_closes : forall ws, moves R (client_closes ws).
Hypothesis R_ws_opens : forall ws, moves R (ws_opens ws).
Hypothesis R_ws_fails : forall ws, moves R (ws_fails ws).
Hypothesis R_ws_closes : forall ws, moves R (ws_closes ws).
Hypothesis R_timer_due : forall ws, moves R (timer_due ws).

Lemma moves_fire (e : Event) : moves R (fire e).
Proof.
  destruct e; simpl; unfold onConnection;
    repeat first
      [ apply R_accept | apply R_new_session | apply R_client_closing
      | apply R_client_closes
      | apply R_ws_opens | apply R_ws_fails | apply R_ws_closes
      | apply R_timer_due | apply moves_onClientMessage
      | apply moves_onClientClose | apply moves_onOpen
      | apply moves_onUpstreamMessage | apply moves_onUpstreamError
      | apply moves_onUpstreamClose | apply moves_onTimeout | moves_step ].
Qed.

Lemma moves_run (events : list Event) : moves R (run events).
Proof.
  induction events as [|e events IH]; simpl; [apply moves_ret|].
  apply moves_bind; [apply moves_fire|intros _; exact IH].
Qed.
End Moves.

(** ** No listener throws *)

Section Safe.
Lemma safe_ret {A} (a : A) : safe (ret a).
Proof. intros w. by exists a. Qed.

Lemma safe_gets {A} (f : World -> A) : safe (gets f).
Proof. intros w. by eexists. Qed.

Lemma safe_modify (f : World -> World) : safe (modify f).
Proof. intros w. by exists tt. Qed.

Lemma safe_bind {A B} (m : M A) (k : A -> M B) :
  safe m -> (forall a, safe (k a)) -> safe (bind m k).
Proof.
  intros Hm Hk w. unfold bind. destruct (Hm w) as [a Ha].
  destruct (m w) as [r w']; simpl in Ha; subst r. apply Hk.
Qed.

Lemma safe_try_catch (m h : M unit) : safe h -> safe (try_catch m h).
Proof.
  intros Hh w. unfold try_catch.
  destruct (m w) as [[a|e] w']; simpl; [by exists a|apply Hh].
Qed.

Lemma safe_when (b : bool) (m : M unit) : safe m -> safe (when b m).
Proof. destruct b; simpl; [done|]. intros _. apply safe_ret. Qed.

Lemma safe_with_session (r : nat) (k : ClientSession -> M unit) :
  (forall s, safe (k s)) -> safe (with_session r k).
Proof.
  intros Hk w. unfold with_session.
  destruct (heap w !! r); [apply Hk|by exists tt].
Qed.

Lemma safe_sendToClient (ws : nat) (m : ServerMessage) : safe (sendToClient ws m).
Proof.
  unfold sendToClient. apply safe_bind; [apply safe_gets|].
  intros st. destruct (decide _); [apply safe_modify|apply safe_ret].
Qed.

Lemma ws_send_open (ws : nat) (d : Upstream.Message) (w : World) (s : UpstreamSocket) :
  upstreams w !! ws = Some s -> readyState s = OPEN ->
  ws_send ws d w = (Ok tt, emit (ToUpstream ws d) w).
Proof.
  intros Hs Hst. unfold ws_send, ws_readyState, bind, gets.
  by rewrite Hs; simpl; rewrite Hst.
Qed.

(** [if (ws.readyState === WebSocket.OPEN) ws.send(data)] *)
Lemma safe_send_if_open (ws : nat) (d : Upstream.Message) :
  safe (let* st := ws_readyState ws in
        if decide (st = Some OPEN) then ws_send ws d else ret tt).
Proof.
  intros w. unfold bind, ws_readyState, gets.
  destruct (decide _) as [Hst|]; [|by exists tt].
  destruct (upstreams w !! ws) as [s|] eqn:Hs; [|done].
  simpl in Hst. erewrite ws_send_open; [by exists tt|done|congruence].
Qed.

Lemma safe_connectToOpenAI (r : nat) : safe (connectToOpenAI r).
Proof.
  unfold connectToOpenAI. apply safe_with_session; intros s.
  apply safe_bind; [apply safe_gets|]. intros apiKey.
  destruct (missing apiKey); [apply safe_sendToClient|].
  apply safe_bind; [by intros w; eexists|]. intros ws. apply safe_modify.
Qed.

Lemma safe_handleClientMessage (r : nat) (message : ClientMessage) :
  safe (handleClientMessage r message).
Proof.
  destruct message; simpl.
  - apply safe_bind; [apply safe_modify|]. intros _. apply safe_connectToOpenAI.
  - apply safe_with_session; intros s.
    destruct (openaiWs s); [apply safe_send_if_open|apply safe_ret].
  - apply safe_with_session; intros s.
    apply safe_bind; [|intros _; apply safe_sendToClient].
    destruct (openaiWs s); [|apply safe_ret].
    apply safe_bind; [apply safe_modify|intros _; apply safe_modify].
  - apply safe_ret.
Qed.

Lemma safe_onOpen_opened (r ws : nat) (w : World) (s : UpstreamSocket) :
  upstreams w !! ws = Some s ->
  exists a, fst (onOpen r ws (become OPEN ws w)) = Ok a.
Proof.
  intros Hs. unfold onOpen, with_session.
  destruct (heap (become OPEN ws w) !! r) as [session|]; [|by exists tt].
  unfold bind at 1.
  erewrite (ws_send_open ws _ _ (set_readyState OPEN s)); [|simpl|done].
  - apply safe_bind; [apply safe_sendToClient|].
    intros _. apply safe_when, safe_modify.
  - by rewrite list_lookup_alter_eq, Hs.
Qed.

Lemma safe_fire (e : Event) : safe (fire e).
Proof.
  destruct e; simpl.
  - unfold onConnection.
    apply safe_bind; [by intros w; eexists|]. intros ws.
    apply safe_bind; [by intros w; eexists|]. intros r.
    apply safe_bind; [apply safe_modify|]. intros _. apply safe_sendToClient.
  - apply safe_with_session; intros s. apply safe_try_catch, safe_sendToClient.
  - apply safe_with_session; intros s. apply safe_modify.
  - apply safe_with_session; intros s.
    apply safe_bind; [apply safe_modify|]. intros _.
    apply safe_with_session; intros s'.
    apply safe_bind; [|intros _; apply safe_modify].
    destruct (openaiWs s'); [apply safe_modify|apply safe_ret].
  - apply safe_ret.
  - intros w. unfold with_upstream.
    destruct (upstreams w !! ws) as [s|] eqn:Hs; [|by exists tt].
    unfold bind, ws_opens. rewrite Hs.
    destruct (decide _); simpl; [|by exists tt].
    by eapply safe_onOpen_opened.
  - intros w. unfold with_upstream.
    destruct (upstreams w !! ws) as [s|]; [|by exists tt].
    apply safe_try_catch, safe_ret.
  - intros w. unfold with_upstream.
    destruct (upstreams w !! ws) as [s|]; [|by exists tt].
    apply safe_bind; [intros w'; unfold ws_fails; repeat case_match; by eexists|].
    intros b. apply safe_when, safe_with_session. intros s'. apply safe_sendToClient.
  - intros w. unfold with_upstream.
    destruct (upstreams w !! ws) as [s|]; [|by exists tt].
    apply safe_bind; [intros w'; unfold ws_closes; repeat case_match; by eexists|].
    intros b. apply safe_when, safe_with_session. intros s'.
    apply safe_bind; [apply safe_sendToClient|intros _; apply safe_modify].
  - apply safe_bind; [intros w'; unfold timer_due; case_match; by eexists|].
    intros b. apply safe_when. apply safe_send_if_open.
Qed.

Lemma safe_run (events : list Event) : safe (run events).
Proof.
  induction events as [|e events IH]; simpl; [apply safe_ret|].
  apply safe_bind; [apply safe_fire|intros _; exact IH].
Qed.

Lemma run_returns (events : list Event) (w : World) :
  run events w = (Ok tt, snd (run events w)).
Proof.
  destruct (safe_run events w) as [[] Ha].
  destruct (run events w) as [r w']; simpl in *. by subst r.
Qed.
End Safe.

(** ** The guard in front of the client socket *)

Global Instance client_guard_preorder : PreOrder client_guard.
Proof.
  split.
  - intros w. split; [by left|]. exists []. split; [by rewrite app_nil_r|].
    intros c m [].
  - intros w1 w2 w3 [Hc12 (n12 & Hw12 & Hn12)] [Hc23 (n23 & Hw23 & Hn23)]. split.
    + intros c st Hst. destruct (Hc12 c st Hst) as [H|[H|H]].
      * exact (Hc23 c st H).
      * right. destruct (Hc23 c CLOSING H) as [?|[?|?]]; auto.
      * right. destruct (Hc23 c CLOSED H) as [?|[?|?]]; auto.
    + exists (n12 ++ n23)%list. split; [by rewrite Hw23, Hw12, app_assoc|].
      intros c m [Hin|Hin]%in_app_or; [by apply (Hn12 c m)|].
      destruct (clients w1 !! c) as [st|] eqn:Hst; [|by right].
      left. destruct (Hn23 c m Hin) as [H|H], (Hc12 c st Hst) as [H'|[H'|H']];
        congruence.
Qed.

Lemma client_guard_quiet (w w' : World) :
  clients w' = clients w -> wire w' = wire w -> client_guard w w'.
Proof.
  intros Hc Hw. split; [intros c st; rewrite Hc; by left|].
  exists []. split; [by rewrite Hw, app_nil_r|]. intros c m [].
Qed.

Lemma client_guard_sendToClient (ws : nat) (m : ServerMessage) :
  moves client_guard (sendToClient ws m).
Proof.
  intros w. unfold sendToClient, bind, gets.
  destruct (decide _) as [Hopen|]; simpl; [|reflexivity].
  split; [by left|]. exists [ToClient ws m]. split; [done|].
  intros c m' [[= <- <-]|[]]. by left.
Qed.

Lemma client_guard_ws_send (ws : nat) (d : Upstream.Message) :
  moves client_guard (ws_send ws d).
Proof.
  intros w. unfold ws_send, ws_readyState, bind, gets.
  destruct (readyState <$> upstreams w !! ws) as [[]|]; simpl; try reflexivity.
  split; [by left|]. exists [ToUpstream ws d]. split; [done|].
  intros c m' [[=]|[]].
Qed.

Lemma client_guard_run (events : list Event) : moves client_guard (run events).
Proof.
  apply moves_run; try apply _;
    try (by intros; intros w; apply client_guard_quiet).
  - apply client_guard_sendToClient.
  - apply client_guard_ws_send.
  - intros w. split; [|by exists []; rewrite app_nil_r].
    intros c st Hst. left. simpl. by apply lookup_app_l_Some.
  - intros ws w. split; [|by exists []; rewrite app_nil_r].
    intros c st Hst. simpl. destruct (decide (ws = c)) as [->|Hne].
    + rewrite list_lookup_alter_eq, Hst. simpl. destruct st; auto.
    + left. by rewrite list_lookup_alter_ne.
  - intros ws w. split; [|by exists []; rewrite app_nil_r].
    intros c st Hst. simpl. destruct (decide (ws = c)) as [->|Hne].
    + right. right. apply list_lookup_insert_eq. by eapply lookup_lt_Some.
    + left. by rewrite list_lookup_insert_ne.
  - intros ws w. unfold ws_opens. repeat case_match; by apply client_guard_quiet.
  - intros ws w. unfold ws_fails. repeat case_match; by apply client_guard_quiet.
  - intros ws w. unfold ws_closes. repeat case_match; by apply client_guard_quiet.
  - intros ws w. unfold timer_due. repeat case_match; by apply client_guard_quiet.
Qed.

Lemma client_inbox_app (c : nat) (w w' : World) (new : list Output) :
  wire w' = (wire w ++ new)%list ->
  client_inbox c w' = (client_inbox c w ++ omap (to_client c) new)%list.
Proof. intros Hw. unfold client_inbox. by rewrite Hw, omap_app. Qed.

Lemma omap_to_client_nil (c : nat) (new : list Output) :
  (forall m, ~ In (ToClient c m) new) -> omap (to_client c) new = [].
Proof.
  induction new as [|o new IH]; intros Hnot; [done|].
  assert (omap (to_client c) new = []) as Hnew
    by (apply IH; intros m Hin; apply (Hnot m); by right).
  destruct o as [c' m|]; cbn; [|done].
  destruct (decide (c' = c)) as [->|]; cbn; [|done].
  destruct (Hnot m). by left.
Qed.

(** C10. A message for a client whose socket is not open is dropped by
    [sendToClient] without an exception; since every listener writes to the
    client through it, no run of the relay throws, and none adds anything to
    what such a client was sent. *)
Theorem sendToClient_guards_every_emission
    (events : list Event) (w : World) (c : nat) (st : ReadyState) :
  clients w !! c = Some st -> st <> OPEN ->
  (forall m, sendToClient c m w = (Ok tt, w)) /\
  exists w', run events w = (Ok tt, w') /\ client_inbox c w' = client_inbox c w.
Proof.
  intros Hc Hst. split.
  - intros m. unfold sendToClient, bind, gets. rewrite Hc.
    destruct (decide _) as [[= ->]|]; done.
  - exists (snd (run events w)). split; [apply run_returns|].
    destruct (client_guard_run events w) as [_ (new & Hw & Hnew)].
    rewrite (client_inbox_app c _ _ new Hw), omap_to_client_nil, app_nil_r; [done|].
    intros m Hin. destruct (Hnew c m Hin); congruence.
Qed.

(** ** The client dispatcher *)

Lemma sendToClient_open (ws : nat) (m : ServerMessage) (w : World) :
  clients w !! ws = Some OPEN ->
  sendToClient ws m w = (Ok tt, emit (ToClient ws m) w).
Proof.
  intros Hopen. unfold sendToClient, bind, gets. rewrite Hopen.
  by destruct (decide _).
Qed.

Lemma sendToClient_not_open (ws : nat) (m : ServerMessage) (w : World) :
  clients w !! ws <> Some OPEN -> sendToClient ws m w = (Ok tt, w).
Proof.
  intros Hclosed. unfold sendToClient, bind, gets. by destruct (decide _).
Qed.

(** The world after the first half of the [session.end] case. *)
Lemma session_end_unfold (w : World) (r : nat) (s : ClientSession) :
  heap w !! r = Some s ->
  handleClientMessage r SessionEnd w =
  sendToClient (clientWs s) SessionEnded
    match openaiWs s with
    | Some ws => snd (update_session r (set_openaiWs None) (snd (ws_close ws w)))
    | None => w
    end.
Proof.
  intros Hs. simpl. unfold with_session. rewrite Hs.
  by destruct (openaiWs s).
Qed.

(** The [session.end] case by itself: the dispatcher returns normally and
    writes one [session.ended] to the client, whether or not an upstream
    link was attached; an attached link has [close()] called on it and the
    handle is null afterwards.  A second [session.end] finds the handle
    null, returns normally as well and writes one more [session.ended]. *)
Lemma handleClientMessage_session_end
    (w : World) (r : nat) (s : ClientSession) :
  heap w !! r = Some s ->
  clients w !! clientWs s = Some OPEN ->
  let w1 := snd (handleClientMessage r SessionEnd w) in
  let w2 := snd (handleClientMessage r SessionEnd w1) in
  fst (handleClientMessage r SessionEnd w) = Ok tt /\
  wire w1 = (wire w ++ [ToClient (clientWs s) SessionEnded])%list /\
  openaiWs <$> heap w1 !! r = Some None /\
  (forall ws, openaiWs s = Some ws ->
     readyState <$> upstreams w1 !! ws
     = close_state <$> (readyState <$> upstreams w !! ws)) /\
  (openaiWs s = None -> upstreams w1 = upstreams w) /\
  fst (handleClientMessage r SessionEnd w1) = Ok tt /\
  wire w2 = (wire w1 ++ [ToClient (clientWs s) SessionEnded])%list /\
  upstreams w2 = upstreams w1 /\ heap w2 = heap w1.
Proof.
  intros Hs Hopen.
  pose (w0 := match openaiWs s with
              | Some ws => snd (update_session r (set_openaiWs None) (snd (ws_close ws w)))
              | None => w
              end).
  assert (clients w0 = clients w) as Hcl0 by (subst w0; by destruct (openaiWs s)).
  assert (handleClientMessage r SessionEnd w
          = (Ok tt, emit (ToClient (clientWs s) SessionEnded) w0)) as Hfirst.
  { rewrite (session_end_unfold w r s Hs). apply sendToClient_open. by rewrite Hcl0. }
  assert (exists s1, heap w0 !! r = Some s1 /\ openaiWs s1 = None
                     /\ clientWs s1 = clientWs s) as (s1 & Hs1 & Hnull & Hc1).
  { subst w0. destruct s as [c [ws|] sid cfg]; simpl in *; [|by eexists].
    rewrite list_lookup_alter_eq, Hs. by eexists. }
  intros w1 w2. subst w2 w1. rewrite Hfirst. cbn [fst snd].
  assert (handleClientMessage r SessionEnd (emit (ToClient (clientWs s) SessionEnded) w0)
          = (Ok tt, emit (ToClient (clientWs s) SessionEnded)
                      (emit (ToClient (clientWs s) SessionEnded) w0))) as Hsecond.
  { rewrite (session_end_unfold (emit (ToClient (clientWs s) SessionEnded) w0) r s1 Hs1),
      Hnull, Hc1.
    apply sendToClient_open. simpl. by rewrite Hcl0. }
  rewrite Hsecond. cbn [fst snd].
  change (heap (emit (ToClient (clientWs s) SessionEnded) w0)) with (heap w0).
  change (upstreams (emit (ToClient (clientWs s) SessionEnded) w0)) with (upstreams w0).
  rewrite Hs1. cbn [fmap option_fmap option_map]. rewrite Hnull.
  repeat split; try done.
  - subst w0. simpl. by destruct (openaiWs s).
  - intros ws Hws. subst w0. rewrite Hws. simpl.
    rewrite list_lookup_alter_eq. by destruct (upstreams w !! ws).
  - intros Hws. subst w0. by rewrite Hws.
Qed.

(** C9. [audio.input]: when the session's upstream link is open the
    payload goes out, unchanged, as one [input_audio_buffer.append] and
    nothing else happens; when the link is missing or not open the message is
    dropped and the world stays as it was, so the client is told nothing.
    Something is written only in the first case. *)
Theorem audio_input_forwarded_iff_link_open
    (w : World) (r : nat) (s : ClientSession) (audio : string) :
  heap w !! r = Some s ->
  let link_open ws :=
    openaiWs s = Some ws /\ readyState <$> upstreams w !! ws = Some OPEN in
  (forall ws, link_open ws ->
     handleClientMessage r (AudioInput audio) w
     = (Ok tt, emit (ToUpstream ws (Upstream.InputAudioBufferAppend audio)) w)) /\
  ((forall ws, ~ link_open ws) ->
     handleClientMessage r (AudioInput audio) w = (Ok tt, w)) /\
  (wire (snd (handleClientMessage r (AudioInput audio) w)) <> wire w ->
     exists ws, link_open ws).
Proof.
  intros Hs link_open. subst link_open. simpl. unfold with_session. rewrite Hs.
  destruct (openaiWs s) as [ws|]; cycle 1.
  { split; [by intros ? [[=] _]|]. split; [done|]. simpl. done. }
  unfold bind, ws_readyState, gets. cbv beta iota.
  destruct (decide (readyState <$> upstreams w !! ws = Some OPEN)) as [Hopen|Hshut].
  - destruct (upstreams w !! ws) as [up|] eqn:Hup; [|done].
    assert (readyState up = OPEN) as Hst by (simpl in Hopen; congruence).
    rewrite (ws_send_open ws _ w up Hup Hst).
    split; [by intros ? [[= <-] _]|]. split.
    + intros Hnone. destruct (Hnone ws). split; [done|by rewrite Hup].
    + intros _. exists ws. split; [done|by rewrite Hup].
  - split; [by intros ? [[= <-] Hopen]|]. split; [done|]. simpl. done.
Qed.

(** C7. [session.start] without a credential ([OPENAI_API_KEY] unset or
    empty): the configuration is stored, the client is sent the one error
    [OpenAI API key not configured], no socket towards the API is created
    and nothing is scheduled; the session's upstream handle is what it was,
    so a null handle stays null. *)
Theorem session_start_without_key_reports_and_stops
    (w : World) (r : nat) (s : ClientSession) (cfg : SessionConfig.t) :
  heap w !! r = Some s ->
  clients w !! clientWs s = Some OPEN ->
  missing (OPENAI_API_KEY w) = true ->
  let w' := snd (handleClientMessage r (SessionStart cfg) w) in
  fst (handleClientMessage r (SessionStart cfg) w) = Ok tt /\
  wire w' = (wire w ++ [ToClient (clientWs s)
                          (Error (VStr "OpenAI API key not configured"))])%list /\
  upstreams w' = upstreams w /\
  timers w' = timers w /\
  heap w' !! r = Some (set_config (Some cfg) s) /\
  (openaiWs s = None -> openaiWs <$> heap w' !! r = Some None).
Proof.
  intros Hs Hopen Hkey. simpl.
  unfold bind at 1 2 3 4 5 6. unfold update_session, modify, connectToOpenAI, with_session.
  simpl. rewrite list_lookup_alter_eq, Hs. simpl.
  unfold bind, gets. simpl. rewrite Hkey.
  rewrite sendToClient_open by done. simpl.
  rewrite list_lookup_alter_eq, Hs. simpl. repeat split; try done.
  intros ->. done.
Qed.

(** C4. The [close] listener of the client socket: [close()] is called on
    the upstream socket the session holds, if it holds one, which leaves that
    socket closing or closed; the other sockets are untouched; and the
    registry has no entry under the session's identifier afterwards, whatever
    it held before.  Nothing is written and nothing is thrown. *)
Theorem client_close_removes_session (w : World) (r : nat) (s : ClientSession) :
  heap w !! r = Some s ->
  let w' := snd (onClientClose r w) in
  fst (onClientClose r w) = Ok tt /\
  sessions w' !! sessionId s = None /\
  (forall sid, sid <> sessionId s -> sessions w' !! sid = sessions w !! sid) /\
  (forall ws up, openaiWs s = Some ws -> upstreams w !! ws = Some up ->
     exists up', upstreams w' !! ws = Some up' /\
                 readyState up' = close_state (readyState up) /\
                 (readyState up' = CLOSING \/ readyState up' = CLOSED)) /\
  (forall ws, openaiWs s <> Some ws -> upstreams w' !! ws = upstreams w !! ws) /\
  wire w' = wire w.
Proof.
  intros Hs. simpl. unfold onClientClose, with_session. rewrite Hs.
  destruct (openaiWs s) as [ws|] eqn:Hws; simpl.
  - repeat split.
    + apply lookup_delete_eq.
    + intros sid Hne. by apply lookup_delete_ne.
    + intros ? up [= <-] Hup. rewrite list_lookup_alter_eq, Hup. simpl.
      eexists. split; [done|]. simpl. split; [done|]. destruct (readyState up); auto.
    + intros ws' Hne. apply list_lookup_alter_ne. congruence.
  - repeat split.
    + apply lookup_delete_eq.
    + intros sid Hne. by apply lookup_delete_ne.
    + done.
Qed.

(** ** The event translator *)

Lemma prop_of_object (event : Value) (t : string) (k : string) :
  opt_prop event "type" = VStr t -> prop event k = ret (opt_prop event k).
Proof. by destruct event. Qed.

(** An event whose [type] is a string reaches the [switch]. *)
Lemma handleOpenAIEvent_dispatch
    (w : World) (r : nat) (s : ClientSession) (event : Value) (t : string) :
  heap w !! r = Some s ->
  opt_prop event "type" = VStr t ->
  handleOpenAIEvent r event w =
  (if t =? "response.audio.delta" then
     let* delta := ret (opt_prop event "delta") in
     when (truthy delta) (sendToClient (clientWs s) (AudioOutput delta))
   else if t =? "response.audio_transcript.delta" then
     let* delta := ret (opt_prop event "delta") in
     let* itemId := ret (opt_prop event "item_id") in
     when (truthy delta)
          (sendToClient (clientWs s)
             (TranscriptPartial assistant delta (or_else itemId (VStr "unknown"))))
   else if t =? "response.audio_transcript.done" then
     transcript_final (clientWs s) assistant event
   else if t =? "conversation.item.input_audio_transcription.completed" then
     transcript_final (clientWs s) user event
   else if t =? "response.done" then
     let usage := opt_prop (opt_prop event "response") "usage" in
     if truthy usage then
       let* inputTokenDetails := prop usage "input_token_details" in
       let* outputTokenDetails := prop usage "output_token_details" in
       let* input_tokens := prop usage "input_tokens" in
       let* output_tokens := prop usage "output_tokens" in
       sendToClient (clientWs s)
         (UsageUpdate
            (or_else input_tokens (VNum 0))
            (or_else output_tokens (VNum 0))
            (or_else (opt_prop inputTokenDetails "audio_tokens") (VNum 0))
            (or_else (opt_prop outputTokenDetails "audio_tokens") (VNum 0)))
     else ret tt
   else if t =? "error" then
     sendToClient (clientWs s)
       (Error (or_else (opt_prop (opt_prop event "error") "message")
                       (VStr "Unknown error from AI")))
   else ret tt) w.
Proof.
  intros Hs Ht. unfold handleOpenAIEvent, transcript_final.
  rewrite !(prop_of_object event t _ Ht).
  unfold bind at 1. unfold ret at 1. rewrite Ht. simpl opt_includes.
  unfold bind at 1. unfold ret at 1. unfold with_session. rewrite Hs.
  repeat (case_match; [done|]).
  by destruct (ignored t).
Qed.

Lemma transcript_final_spec
    (w : World) (c : nat) (role : Role) (event : Value) (t : string) :
  opt_prop event "type" = VStr t ->
  clients w !! c = Some OPEN ->
  transcript_final c role event w =
  (Ok tt,
   if truthy (opt_prop event "transcript")
   then emit (ToClient c (TranscriptFinal role (opt_prop event "transcript")
                            (or_else (opt_prop event "item_id") (VStr "unknown")))) w
   else w).
Proof.
  intros Ht Hopen. unfold transcript_final.
  rewrite !(prop_of_object event t _ Ht). unfold bind, ret.
  destruct (truthy _); [|done]. simpl. by apply sendToClient_open.
Qed.

(** C3. A finalized transcript, of the assistant
    ([response.audio_transcript.done]) or of the user
    ([conversation.item.input_audio_transcription.completed]): with the empty
    string as its text (or any other falsy text) the event changes nothing, so
    no [transcript.final] is written; with a non-empty text exactly one
    [transcript.final] goes to the client, with the role of the event, the
    text unchanged and the item identifier (or [unknown]). *)
Theorem transcript_final_only_when_text_nonempty
    (w : World) (r : nat) (s : ClientSession) (event : Value) (role : Role) :
  heap w !! r = Some s ->
  clients w !! clientWs s = Some OPEN ->
  opt_prop event "type"
  = VStr match role with
         | assistant => "response.audio_transcript.done"
         | user => "conversation.item.input_audio_transcription.completed"
         end ->
  (opt_prop event "transcript" = VStr "" -> handleOpenAIEvent r event w = (Ok tt, w)) /\
  (truthy (opt_prop event "transcript") = false ->
     handleOpenAIEvent r event w = (Ok tt, w)) /\
  (forall text, text <> "" -> opt_prop event "transcript" = VStr text ->
     handleOpenAIEvent r event w
     = (Ok tt, emit (ToClient (clientWs s)
                       (TranscriptFinal role (VStr text)
                          (or_else (opt_prop event "item_id") (VStr "unknown")))) w)).
Proof.
  intros Hs Hopen Ht.
  assert (handleOpenAIEvent r event w = transcript_final (clientWs s) role event w) as ->.
  { rewrite (handleOpenAIEvent_dispatch w r s event _ Hs Ht). by destruct role. }
  rewrite (transcript_final_spec w _ role event _ Ht Hopen).
  split; [by intros ->|]. split; [by intros ->|].
  intros text Hne ->. simpl. by destruct (String.eqb_spec text "").
Qed.

(** C2. [response.done] carrying a usage object: exactly one
    [usage.update] goes to the client; each of its four fields is the count
    read from the usage ([input_tokens], [output_tokens], and [audio_tokens]
    under [input_token_details] and [output_token_details]) or zero where the
    count is missing, whether one field or a whole details object is absent.
    For the usage [{input_tokens: 120, output_tokens: 45,
    input_token_details: {audio_tokens: 30}}] the message is
    [usage.update{120, 45, 30, 0}]. *)
Theorem usage_update_zero_fills_missing_counts
    (w : World) (r : nat) (s : ClientSession)
    (event : Value) (fields : list (string * Value)) :
  heap w !! r = Some s ->
  clients w !! clientWs s = Some OPEN ->
  opt_prop event "type" = VStr "response.done" ->
  opt_prop (opt_prop event "response") "usage" = VObj fields ->
  let usage := VObj fields in
  let count (v : Value) := or_else v (VNum 0) in
  handleOpenAIEvent r event w
  = (Ok tt,
     emit (ToClient (clientWs s)
             (UsageUpdate
                (count (opt_prop usage "input_tokens"))
                (count (opt_prop usage "output_tokens"))
                (count (opt_prop (opt_prop usage "input_token_details") "audio_tokens"))
                (count (opt_prop (opt_prop usage "output_token_details") "audio_tokens"))))
          w) /\
  count VUndefined = VNum 0 /\
  (forall n, count (VNum n) = VNum n) /\
  (forall k, opt_prop VUndefined k = VUndefined) /\
  handleOpenAIEvent r usage_example w
  = (Ok tt,
     emit (ToClient (clientWs s)
             (UsageUpdate (VNum 120) (VNum 45) (VNum 30) (VNum 0))) w).
Proof.
  intros Hs Hopen Ht Hu usage count. split; [|split; [done|split; [|split; [done|]]]].
  - rewrite (handleOpenAIEvent_dispatch w r s event _ Hs Ht). simpl.
    rewrite Hu. simpl. unfold bind, ret. by apply sendToClient_open.
  - intros n. unfold count, or_else. simpl. by destruct (Z.eqb_spec n 0) as [->|].
  - rewrite (handleOpenAIEvent_dispatch w r s usage_example "response.done" Hs eq_refl).
    simpl. unfold bind, ret. by apply sendToClient_open.
Qed.

(** ** The upstream connector *)

Lemma onOpen_spec (w : World) (r ws : nat) (s : ClientSession) (up : UpstreamSocket) :
  heap w !! r = Some s ->
  upstreams w !! ws = Some up ->
  readyState up = OPEN ->
  clients w !! clientWs s = Some OPEN ->
  onOpen r ws w =
  (Ok tt,
   (if config_agentSpeaksFirst (config s)
    then set_timers (fun l => (l ++ [ws])%list) else id)
     (emit (ToClient (clientWs s) SessionReady)
        (emit (ToUpstream ws (sessionUpdate s)) w))).
Proof.
  intros Hs Hup Hst Hopen. unfold onOpen, with_session. rewrite Hs.
  unfold bind at 1. rewrite (ws_send_open ws _ w up Hup Hst).
  unfold bind. rewrite sendToClient_open by done.
  by destruct (config_agentSpeaksFirst (config s)).
Qed.

Lemma fire_UpstreamOpened (w : World) (ws : nat) (up : UpstreamSocket) :
  upstreams w !! ws = Some up ->
  readyState up = CONNECTING ->
  fire (UpstreamOpened ws) w = onOpen (owner up) ws (become OPEN ws w).
Proof.
  intros Hup Hst. simpl. unfold with_upstream. rewrite Hup.
  unfold bind, ws_opens. rewrite Hup. by destruct (decide _).
Qed.

(** C8. When the upstream socket opens, the relay writes one message to
    it, the [session.update] negotiation, and then [session.ready] to the
    client, and nothing else.  The negotiation declares the modalities text
    and audio, the prompt of the configuration as instructions (or
    [You are a helpful assistant.] when it is empty or no configuration is
    set), its voice (or [alloy]), [pcm16] in both directions, transcription
    with [whisper-1], and server-side turn detection with a threshold between
    0 and 1 and a padding and a silence duration that are whole numbers of
    milliseconds.  The greeting is only scheduled, and only when the
    configuration asks the agent to speak first. *)
Theorem upstream_open_negotiates_then_reports_ready
    (w : World) (ws : nat) (up : UpstreamSocket) (s : ClientSession) :
  upstreams w !! ws = Some up ->
  readyState up = CONNECTING ->
  heap w !! owner up = Some s ->
  clients w !! clientWs s = Some OPEN ->
  let w' := snd (fire (UpstreamOpened ws) w) in
  exists negotiation : Upstream.Session,
    fst (fire (UpstreamOpened ws) w) = Ok tt /\
    wire w' = (wire w ++ [ToUpstream ws (Upstream.SessionUpdate negotiation);
                          ToClient (clientWs s) SessionReady])%list /\
    Upstream.modalities negotiation = ["text"; "audio"] /\
    Upstream.instructions negotiation
    = match config s with
      | Some c => if SessionConfig.prompt c =? ""
                  then "You are a helpful assistant."
                  else SessionConfig.prompt c
      | None => "You are a helpful assistant."
      end /\
    Upstream.voice negotiation
    = match config s with
      | Some c => if SessionConfig.voice c =? "" then "alloy" else SessionConfig.voice c
      | None => "alloy"
      end /\
    Upstream.input_audio_format negotiation = "pcm16" /\
    Upstream.output_audio_format negotiation = "pcm16" /\
    Upstream.input_audio_transcription negotiation
    = Some {| Upstream.model := "whisper-1" |} /\
    Upstream.type (Upstream.turn_detection negotiation) = "server_vad" /\
    (0 <= Upstream.threshold (Upstream.turn_detection negotiation) <= 1)%Q /\
    (exists ms : Z, (0 <= ms)%Z /\
       Upstream.prefix_padding_ms (Upstream.turn_detection negotiation) = inject_Z ms) /\
    (exists ms : Z, (0 <= ms)%Z /\
       Upstream.silence_duration_ms (Upstream.turn_detection negotiation) = inject_Z ms) /\
    timers w' = (if config_agentSpeaksFirst (config s)
                 then (timers w ++ [ws])%list else timers w) /\
    readyState <$> upstreams w' !! ws = Some OPEN.
Proof.
  intros Hup Hst Hs Hopen. cbv zeta.
  rewrite (fire_UpstreamOpened w ws up Hup Hst).
  rewrite (onOpen_spec (become OPEN ws w) (owner up) ws s (set_readyState OPEN up));
    [|done|by simpl; rewrite list_lookup_alter_eq, Hup|done|done].
  eexists. split; [done|]. split.
  { destruct (config_agentSpeaksFirst (config s)); simpl;
      by rewrite <- app_assoc. }
  simpl. repeat split.
  - unfold Qle. simpl. lia.
  - unfold Qle. simpl. lia.
  - by exists 200%Z.
  - by exists 700%Z.
  - by destruct (config_agentSpeaksFirst (config s)).
  - destruct (config_agentSpeaksFirst (config s)); simpl;
      by rewrite list_lookup_alter_eq, Hup.
Qed.

Lemma fire_UpstreamErrored (w : World) (ws : nat) (up : UpstreamSocket) :
  upstreams w !! ws = Some up ->
  readyState up <> CLOSED ->
  fire (UpstreamErrored ws) w = onUpstreamError (owner up) (become CLOSING ws w).
Proof.
  intros Hup Hst. simpl. unfold with_upstream. rewrite Hup.
  unfold bind, ws_fails. rewrite Hup. by destruct (decide _).
Qed.

Lemma fire_UpstreamClosed (w : World) (ws : nat) (up : UpstreamSocket) :
  upstreams w !! ws = Some up ->
  readyState up <> CLOSED ->
  fire (UpstreamClosed ws) w = onUpstreamClose (owner up) (become CLOSED ws w).
Proof.
  intros Hup Hst. simpl. unfold with_upstream. rewrite Hup.
  unfold bind, ws_closes. rewrite Hup. by destruct (decide _).
Qed.

Lemma connectToOpenAI_with_key (w : World) (r : nat) (s : ClientSession) :
  heap w !! r = Some s ->
  missing (OPENAI_API_KEY w) = false ->
  connectToOpenAI r w =
  (Ok tt,
   set_heap (alter (set_openaiWs (Some (length (upstreams w)))) r)
     (set_upstreams (fun l => (l ++ [mkUpstream CONNECTING r])%list) w)).
Proof.
  intros Hs Hkey. unfold connectToOpenAI, with_session. rewrite Hs.
  unfold bind, gets. by rewrite Hkey.
Qed.

(** C6. The upstream socket fails while connecting: [ws] emits [error]
    and then [close] on it.  The [error] listener sends the client the error
    [Connection to AI failed] and leaves the session as it is; the [close]
    listener sends [session.ended] and sets the upstream handle to null.
    The registry and the client socket are untouched, so the session lives
    on: a further [session.start] stores the new configuration and attaches a
    fresh connecting socket. *)
Theorem connect_failure_reports_error_and_leaves_handle_null
    (w : World) (ws : nat) (up : UpstreamSocket) (s : ClientSession)
    (cfg : SessionConfig.t) :
  upstreams w !! ws = Some up ->
  readyState up = CONNECTING ->
  heap w !! owner up = Some s ->
  clients w !! clientWs s = Some OPEN ->
  let r := owner up in
  let w1 := snd (fire (UpstreamErrored ws) w) in
  let w2 := snd (fire (UpstreamClosed ws) w1) in
  let w3 := snd (handleClientMessage r (SessionStart cfg) w2) in
  run [UpstreamErrored ws; UpstreamClosed ws] w = (Ok tt, w2) /\
  wire w1 = (wire w ++ [ToClient (clientWs s)
                          (Error (VStr "Connection to AI failed"))])%list /\
  heap w1 = heap w /\
  wire w2 = (wire w1 ++ [ToClient (clientWs s) SessionEnded])%list /\
  heap w2 !! r = Some (set_openaiWs None s) /\
  sessions w2 = sessions w /\
  clients w2 = clients w /\
  readyState <$> upstreams w2 !! ws = Some CLOSED /\
  (missing (OPENAI_API_KEY w) = false ->
     fst (handleClientMessage r (SessionStart cfg) w2) = Ok tt /\
     upstreams w3 = (upstreams w2 ++ [mkUpstream CONNECTING r])%list /\
     heap w3 !! r = Some (mkSession (clientWs s) (Some (length (upstreams w2)))
                            (sessionId s) (Some cfg)) /\
     wire w3 = wire w2).
Proof.
  intros Hup Hst Hs Hopen. cbv zeta.
  pose (w1 := emit (ToClient (clientWs s) (Error (VStr "Connection to AI failed")))
                (become CLOSING ws w)).
  assert (fire (UpstreamErrored ws) w = (Ok tt, w1)) as Herr.
  { rewrite (fire_UpstreamErrored w ws up Hup) by congruence.
    unfold onUpstreamError, with_session. simpl. rewrite Hs.
    by apply sendToClient_open. }
  assert (upstreams w1 !! ws = Some (set_readyState CLOSING up)) as Hup1
    by (simpl; by rewrite list_lookup_alter_eq, Hup).
  pose (w2 := set_heap (alter (set_openaiWs None) (owner up))
                (emit (ToClient (clientWs s) SessionEnded) (become CLOSED ws w1))).
  assert (fire (UpstreamClosed ws) w1 = (Ok tt, w2)) as Hclose.
  { rewrite (fire_UpstreamClosed w1 ws _ Hup1) by done.
    unfold onUpstreamClose, with_session. simpl. rewrite Hs.
    unfold bind. by rewrite sendToClient_open. }
  assert (heap w2 !! owner up = Some (set_openaiWs None s)) as Hs2
    by (simpl; by rewrite list_lookup_alter_eq, Hs).
  change (run [UpstreamErrored ws; UpstreamClosed ws] w)
    with (bind (fire (UpstreamErrored ws))
            (fun _ => bind (fire (UpstreamClosed ws)) (fun _ => ret tt)) w).
  unfold bind at 1. rewrite Herr. unfold bind at 1. cbn [fst snd]. rewrite Hclose.
  cbn [fst snd].
  split; [done|]. split; [done|]. split; [done|]. split; [done|].
  split; [done|]. split; [done|]. split; [done|].
  split; [by simpl; rewrite !list_lookup_alter_eq, Hup|].
  intros Hkey.
  change (handleClientMessage (owner up) (SessionStart cfg) w2)
    with (bind (update_session (owner up) (set_config (Some cfg)))
            (fun _ => connectToOpenAI (owner up)) w2).
  unfold bind, update_session, modify.
  rewrite (connectToOpenAI_with_key _ (owner up)
             (set_config (Some cfg) (set_openaiWs None s)));
    [|by simpl; rewrite !list_lookup_alter_eq, Hs|done].
  cbn [fst snd]. split; [done|]. split; [done|]. split; [|done].
  simpl. by rewrite !list_lookup_alter_eq, Hs.
Qed.

(** ** The delayed greeting *)

Global Instance link_silent_preorder (ws : nat) : PreOrder (link_silent ws).
Proof.
  split.
  - by intros w Hw.
  - intros w1 w2 w3 H12 H23 Hw. destruct (H12 Hw) as [Hw2 E12].
    destruct (H23 Hw2) as [Hw3 E23]. split; [done|congruence].
Qed.

Lemma link_silent_quiet (ws : nat) (w w' : World) :
  upstreams w' = upstreams w -> wire w' = wire w -> link_silent ws w w'.
Proof.
  intros Hu Hw (up & Hup & Hst). split.
  - exists up. by rewrite Hu.
  - unfold upstream_inbox. by rewrite Hw.
Qed.

Lemma link_silent_become (ws ws' : nat) (st : ReadyState) (w : World) :
  (ws' = ws -> st = CLOSING \/ st = CLOSED) ->
  link_silent ws w (become st ws' w).
Proof.
  intros Hst (up & Hup & Hclosed). split; [|done]. unfold closed_link. simpl.
  destruct (decide (ws' = ws)) as [->|Hne].
  - exists (set_readyState st up). rewrite list_lookup_alter_eq, Hup. auto.
  - exists up. by rewrite list_lookup_alter_ne.
Qed.

Lemma link_silent_ws_send (ws ws' : nat) (d : Upstream.Message) :
  moves (link_silent ws) (ws_send ws' d).
Proof.
  intros w. unfold ws_send, ws_readyState, bind, gets.
  destruct (upstreams w !! ws') as [up'|] eqn:Hup'; simpl; [|reflexivity].
  destruct (readyState up') eqn:Hst'; simpl; try reflexivity.
  intros (up & Hup & Hclosed). split; [by exists up|].
  unfold upstream_inbox. simpl. rewrite omap_app. simpl.
  destruct (decide (ws' = ws)) as [->|]; [|by rewrite app_nil_r].
  destruct Hclosed; congruence.
Qed.

Lemma link_silent_sendToClient (ws c : nat) (m : ServerMessage) :
  moves (link_silent ws) (sendToClient c m).
Proof.
  intros w. unfold sendToClient, bind, gets.
  destruct (decide _); simpl; [|reflexivity].
  intros Hw. split; [done|].
  unfold upstream_inbox. simpl. by rewrite omap_app, app_nil_r.
Qed.

Lemma link_silent_run (ws : nat) (events : list Event) :
  moves (link_silent ws) (run events).
Proof.
  apply moves_run; try apply _;
    try (by intros; intros w; apply link_silent_quiet).
  - intros c m. apply link_silent_sendToClient.
  - intros ws' d. apply link_silent_ws_send.
  - intros ws' w (up & Hup & Hclosed). split; [|done]. unfold closed_link. simpl.
    destruct (decide (ws' = ws)) as [->|Hne].
    + eexists. rewrite list_lookup_alter_eq, Hup. split; [done|]. simpl.
      destruct Hclosed as [-> | ->]; auto.
    + exists up. by rewrite list_lookup_alter_ne.
  - intros r w (up & Hup & Hclosed). split; [|done].
    exists up. simpl. split; [|done]. by apply lookup_app_l_Some.
  - intros ws' w. unfold ws_opens.
    destruct (upstreams w !! ws') as [up'|] eqn:Hup'; [|reflexivity].
    destruct (decide _) as [Hst'|]; [|reflexivity]. simpl.
    intros (up & Hup & Hclosed). split; [|done]. unfold closed_link. simpl.
    destruct (decide (ws' = ws)) as [->|Hne].
    + destruct Hclosed; congruence.
    + exists up. by rewrite list_lookup_alter_ne.
  - intros ws' w. unfold ws_fails. repeat case_match; simpl; try reflexivity.
    apply link_silent_become. auto.
  - intros ws' w. unfold ws_closes. repeat case_match; simpl; try reflexivity.
    apply link_silent_become. auto.
  - intros ws' w. unfold timer_due. case_match; simpl; [|reflexivity].
    by apply link_silent_quiet.
Qed.

Lemma fire_TimerFired (w : World) (ws : nat) (up : UpstreamSocket) :
  ws ∈ timers w ->
  upstreams w !! ws = Some up ->
  fire (TimerFired ws) w =
  (Ok tt,
   if decide (readyState up = OPEN)
   then emit (ToUpstream ws responseCreate) (set_timers (remove_first ws) w)
   else set_timers (remove_first ws) w).
Proof.
  intros Hin Hup. simpl. unfold bind at 1. unfold timer_due.
  destruct (decide (ws ∈ timers w)); [|done]. simpl.
  unfold onTimeout, bind, ws_readyState, gets. simpl. rewrite Hup. simpl.
  destruct (decide (Some (readyState up) = Some OPEN)) as [[= Hst]|Hst].
  - rewrite (ws_send_open ws _ _ up); [|done|done]. by destruct (decide _).
  - destruct (decide _); [congruence|done].
Qed.

(** C5, the claim as it stands fails.  The client starts a session whose
    agent speaks first, the upstream socket opens and the greeting is
    pending; the client sends [session.start] again, which puts a second
    socket in the session and leaves the first one open; then [session.end]
    closes the second socket only, and when the delay expires the greeting
    goes out on the first. *)
Lemma greeting_sent_after_session_end :
  timers restarted = [0]
  /\ owner <$> upstreams restarted !! 0 = Some 0
  /\ config_agentSpeaksFirst <$> (config <$> heap restarted !! 0) = Some true
  /\ run [ClientData 0 (Some SessionEnd); TimerFired 0] restarted
     = (Ok tt, snd (run [ClientData 0 (Some SessionEnd); TimerFired 0] restarted))
  /\ upstream_inbox 0 (snd (run [ClientData 0 (Some SessionEnd); TimerFired 0] restarted))
     = (upstream_inbox 0 restarted ++ [responseCreate])%list.
Proof. vm_compute. repeat split. Qed.

(** C5, amended.  When the delay expires the greeting, one
    [response.create], is written to the socket the open listener ran for if
    that socket is open at that moment; otherwise the callback does nothing:
    no write, no exception, nothing to the client.  And if [session.end]
    arrives while that socket is still the upstream link of the session, the
    socket is closing or closed from then on, and whatever happens afterwards,
    the expiry of the delay included, nothing more is written to it. *)
Theorem greeting_skipped_once_link_closed
    (w : World) (r ws : nat) (s : ClientSession) (up : UpstreamSocket)
    (events : list Event) :
  heap w !! r = Some s ->
  openaiWs s = Some ws ->
  upstreams w !! ws = Some up ->
  (forall w0 ws0 up0, ws0 ∈ timers w0 -> upstreams w0 !! ws0 = Some up0 ->
     fire (TimerFired ws0) w0
     = (Ok tt,
        if decide (readyState up0 = OPEN)
        then emit (ToUpstream ws0 responseCreate) (set_timers (remove_first ws0) w0)
        else set_timers (remove_first ws0) w0)) /\
  let w1 := snd (handleClientMessage r SessionEnd w) in
  closed_link ws w1 /\
  exists w', run events w1 = (Ok tt, w') /\
             upstream_inbox ws w' = upstream_inbox ws w.
Proof.
  intros Hs Hws Hup. split; [apply fire_TimerFired|]. cbv zeta.
  rewrite (session_end_unfold w r s Hs), Hws.
  set (w0 := snd (update_session r (set_openaiWs None) (snd (ws_close ws w)))).
  assert (closed_link ws w0) as Hclosed.
  { eexists. simpl. rewrite list_lookup_alter_eq, Hup. split; [done|]. simpl.
    destruct (readyState up); auto. }
  assert (upstream_inbox ws w0 = upstream_inbox ws w) as Hinbox by done.
  destruct (link_silent_sendToClient ws (clientWs s) SessionEnded w0 Hclosed)
    as [Hclosed1 Hinbox1].
  split; [done|].
  exists (snd (run events (snd (sendToClient (clientWs s) SessionEnded w0)))).
  split; [apply run_returns|].
  destruct (link_silent_run ws events _ Hclosed1) as [_ ->]. congruence.
Qed.

(** ** The theorems at work on the sample runs *)

Lemma usage_update_zero_fills_missing_counts_witness :
  heap (ready false) !! 0 = Some (demo_session false)
  /\ clients (ready false) !! clientWs (demo_session false) = Some OPEN
  /\ opt_prop usage_example "type" = VStr "response.done"
  /\ handleOpenAIEvent 0 usage_example (ready false)
     = (Ok tt,
        emit (ToClient 0 (UsageUpdate (VNum 120) (VNum 45) (VNum 30) (VNum 0)))
          (ready false)).
Proof.
  split; [reflexivity|]. split; [reflexivity|]. split; [reflexivity|].
  exact (proj1 (usage_update_zero_fills_missing_counts
                  (ready false) 0 (demo_session false) usage_example _
                  eq_refl eq_refl eq_refl eq_refl)).
Defined.

Lemma transcript_final_only_when_text_nonempty_witness :
  heap (ready false) !! 0 = Some (demo_session false)
  /\ clients (ready false) !! clientWs (demo_session false) = Some OPEN
  /\ opt_prop transcript_example "type" = VStr "response.audio_transcript.done"
  /\ handleOpenAIEvent 0 transcript_example (ready false)
     = (Ok tt,
        emit (ToClient 0 (TranscriptFinal assistant (VStr "Hello, how can I help?")
                            (VStr "item_7")))
          (ready false)).
Proof.
  split; [reflexivity|]. split; [reflexivity|]. split; [reflexivity|].
  apply (proj2 (proj2 (transcript_final_only_when_text_nonempty
                         (ready false) 0 (demo_session false) transcript_example
                         assistant eq_refl eq_refl eq_refl))
           "Hello, how can I help?"); [discriminate|reflexivity].
Defined.

Lemma client_close_removes_session_witness :
  heap (ready true) !! 0 = Some (demo_session true)
  /\ sessions (ready true) !! "session_1" = Some 0
  /\ sessions (snd (onClientClose 0 (ready true))) !! "session_1" = None.
Proof.
  split; [reflexivity|]. split; [reflexivity|].
  exact (proj1 (proj2 (client_close_removes_session
                         (ready true) 0 (demo_session true) eq_refl))).
Defined.

Lemma greeting_skipped_once_link_closed_witness :
  heap (ready true) !! 0 = Some (demo_session true)
  /\ openaiWs (demo_session true) = Some 0
  /\ upstreams (ready true) !! 0 = Some (mkUpstream OPEN 0)
  /\ timers (ready true) = [0]
  /\ exists w',
       run [TimerFired 0] (snd (handleClientMessage 0 SessionEnd (ready true)))
       = (Ok tt, w')
       /\ upstream_inbox 0 w' = upstream_inbox 0 (ready true).
Proof.
  split; [reflexivity|]. split; [reflexivity|]. split; [reflexivity|].
  split; [reflexivity|].
  exact (proj2 (proj2 (greeting_skipped_once_link_closed
                         (ready true) 0 0 (demo_session true) (mkUpstream OPEN 0)
                         [TimerFired 0] eq_refl eq_refl eq_refl))).
Defined.

Lemma connect_failure_reports_error_and_leaves_handle_null_witness :
  upstreams (connecting false) !! 0 = Some (mkUpstream CONNECTING 0)
  /\ heap (connecting false) !! 0 = Some (demo_session false)
  /\ clients (connecting false) !! 0 = Some OPEN
  /\ heap (snd (fire (UpstreamClosed 0)
                  (snd (fire (UpstreamErrored 0) (connecting false))))) !! 0
     = Some (set_openaiWs None (demo_session false)).
Proof.
  split; [reflexivity|]. split; [reflexivity|]. split; [reflexivity|].
  exact (proj1 (proj2 (proj2 (proj2 (proj2
           (connect_failure_reports_error_and_leaves_handle_null
              (connecting false) 0 (mkUpstream CONNECTING 0) (demo_session false)
              (demo_config false) eq_refl eq_refl eq_refl eq_refl)))))).
Defined.

Lemma session_start_without_key_reports_and_stops_witness :
  heap (connected None) !! 0 = Some (mkSession 0 None "session_1" None)
  /\ clients (connected None) !! 0 = Some OPEN
  /\ missing (OPENAI_API_KEY (connected None)) = true
  /\ upstreams (snd (handleClientMessage 0 (SessionStart (demo_config false))
                       (connected None)))
     = upstreams (connected None).
Proof.
  split; [reflexivity|]. split; [reflexivity|]. split; [reflexivity|].
  exact (proj1 (proj2 (proj2
           (session_start_without_key_reports_and_stops
              (connected None) 0 (mkSession 0 None "session_1" None)
              (demo_config false) eq_refl eq_refl eq_refl)))).
Defined.

Lemma upstream_open_negotiates_then_reports_ready_witness :
  upstreams (connecting true) !! 0 = Some (mkUpstream CONNECTING 0)
  /\ heap (connecting true) !! 0 = Some (demo_session true)
  /\ clients (connecting true) !! 0 = Some OPEN
  /\ exists negotiation : Upstream.Session,
       wire (snd (fire (UpstreamOpened 0) (connecting true)))
       = (wire (connecting true)
            ++ [ToUpstream 0 (Upstream.SessionUpdate negotiation);
                ToClient 0 SessionReady])%list.
Proof.
  split; [reflexivity|]. split; [reflexivity|]. split; [reflexivity|].
  destruct (upstream_open_negotiates_then_reports_ready
              (connecting true) 0 (mkUpstream CONNECTING 0) (demo_session true)
              eq_refl eq_refl eq_refl eq_refl) as (negotiation & _ & Hwire & _).
  exists negotiation. exact Hwire.
Defined.

Lemma audio_input_forwarded_iff_link_open_witness :
  heap (ready false) !! 0 = Some (demo_session false)
  /\ handleClientMessage 0 (AudioInput "UklGRg==") (ready false)
     = (Ok tt,
        emit (ToUpstream 0 (Upstream.InputAudioBufferAppend "UklGRg==")) (ready false)).
Proof.
  split; [reflexivity|].
  apply (proj1 (audio_input_forwarded_iff_link_open
                  (ready false) 0 (demo_session false) "UklGRg==" eq_refl) 0).
  split; reflexivity.
Defined.

Lemma sendToClient_guards_every_emission_witness :
  clients abandoned !! 0 = Some CLOSED
  /\ CLOSED <> OPEN
  /\ exists w',
       run [UpstreamData 0 (Some transcript_example); UpstreamClosed 0] abandoned
       = (Ok tt, w')
       /\ client_inbox 0 w' = client_inbox 0 abandoned.
Proof.
  split; [reflexivity|]. split; [discriminate|].
  exact (proj2 (sendToClient_guards_every_emission
                  [UpstreamData 0 (Some transcript_example); UpstreamClosed 0]
                  abandoned 0 CLOSED eq_refl ltac:(discriminate))).
Defined.

(** * The rest of the relay *)

(** ** Every event, run to its end *)

Lemma sendToClient_send (ws : nat) (m : ServerMessage) (w : World) :
  sendToClient ws m w = (Ok tt, send ws m w).
Proof.
  unfold sendToClient, send, bind, gets. by destruct (decide _).
Qed.

Lemma prop_of_truthy (v : Value) (k : string) :
  truthy v = true -> prop v k = ret (opt_prop v k).
Proof. by destruct v. Qed.

(** Whether it returns or throws, [handleOpenAIEvent] leaves the world that
    [translate] describes. *)
Lemma handleOpenAIEvent_translate
    (w : World) (r : nat) (s : ClientSession) (event : Value) :
  heap w !! r = Some s ->
  snd (handleOpenAIEvent r event w)
  = match translate event with
    | Some m => send (clientWs s) m w
    | None => w
    end.
Proof.
  intros Hs. destruct (opt_prop event "type") as [| |b|n|t|xs|fs] eqn:Ht.
  5: { rewrite (handleOpenAIEvent_dispatch w r s event t Hs Ht).
       unfold translate, transcript_final. rewrite Ht.
       rewrite !(prop_of_object event t _ Ht). cbv zeta.
       repeat (destruct (t =? _);
               [unfold bind, ret, when; try destruct (truthy _) eqn:Htruthy;
                rewrite ?(prop_of_truthy _ _ Htruthy); unfold ret;
                by rewrite ?sendToClient_send|]).
       done. }
  all: unfold translate; rewrite Ht; unfold handleOpenAIEvent, prop, bind.
  all: destruct event; simpl in *; try done; rewrite ?Ht; simpl; try done.
  all: unfold with_session; rewrite ?Hs; done.
Qed.

Lemma onUpstreamMessage_effect
    (w : World) (r : nat) (data : option Value) :
  onUpstreamMessage r data w
  = (Ok tt,
     match data with
     | Some event =>
       match translate event with
       | Some m => tell r m w
       | None => w
       end
     | None => w
     end).
Proof.
  unfold onUpstreamMessage, try_catch. destruct data as [event|]; [|done].
  destruct (heap w !! r) as [s|] eqn:Hs.
  - pose proof (handleOpenAIEvent_translate w r s event Hs) as Hw.
    unfold tell. rewrite Hs.
    destruct (handleOpenAIEvent r event w) as [[[]|e] w']; simpl in Hw; by subst w'.
  - assert (snd (handleOpenAIEvent r event w) = w) as Hw.
    { unfold handleOpenAIEvent, bind, prop.
      destruct (nullish event); [done|]. simpl.
      destruct (opt_includes _ w) as [[[]|e] w'] eqn:Hinc.
      - assert (w' = w) as -> by (destruct (opt_prop event "type"); by inversion Hinc).
        unfold with_session. by rewrite Hs.
      - destruct (opt_prop event "type"); by inversion Hinc. }
    unfold tell. rewrite Hs.
    destruct (handleOpenAIEvent r event w) as [[[]|e] w']; simpl in Hw; subst w';
      by destruct (translate event).
Qed.

Lemma list_alter_None {A} (f : A -> A) (l : list A) (i : nat) :
  l !! i = None -> alter f i l = l.
Proof.
  intros Hi. apply list_eq. intros j. destruct (decide (i = j)) as [<-|Hne].
  - by rewrite list_lookup_alter_eq, Hi.
  - by rewrite list_lookup_alter_ne.
Qed.

Lemma handleClientMessage_effect
    (w : World) (r : nat) (s : ClientSession) (message : ClientMessage) :
  heap w !! r = Some s ->
  handleClientMessage r message w = (Ok tt, effect (ClientData r (Some message)) w).
Proof.
  intros Hs. destruct message as [cfg|audio| |]; [| | |done].
  - change (handleClientMessage r (SessionStart cfg) w)
      with (bind (update_session r (set_config (Some cfg)))
              (fun _ => connectToOpenAI r) w).
    unfold bind, update_session, modify. simpl effect. rewrite Hs.
    unfold connectToOpenAI, with_session. simpl heap.
    rewrite list_lookup_alter_eq, Hs. simpl.
    unfold bind, gets. simpl.
    destruct (missing (OPENAI_API_KEY w)); [by rewrite sendToClient_send|done].
  - simpl. unfold with_session. rewrite Hs.
    destruct (openaiWs s) as [ws|]; [|done].
    unfold bind, ws_readyState, gets.
    destruct (decide _) as [Hopen|]; [|done].
    destruct (upstreams w !! ws) as [up|] eqn:Hup; [|done].
    apply (ws_send_open ws _ w up Hup). simpl in Hopen. congruence.
  - rewrite (session_end_unfold w r s Hs). simpl effect. rewrite Hs.
    rewrite sendToClient_send. by destruct (openaiWs s).
Qed.

(** Each event makes its listeners return normally, in the world that
    [effect] gives. *)
Lemma fire_effect (e : Event) (w : World) : fire e w = (Ok tt, effect e w).
Proof.
  destruct e as [sid|r data|r|r|r|ws|ws data|ws|ws|ws].
  - simpl. unfold onConnection, bind, accept, new_session, modify.
    rewrite sendToClient_send. unfold send. simpl.
    rewrite decide_True; [done|]. by rewrite lookup_app_r, Nat.sub_diag.
  - simpl fire. unfold onClientMessage, with_session, try_catch.
    destruct (heap w !! r) as [s|] eqn:Hs.
    + destruct data as [message|].
      * by rewrite (handleClientMessage_effect w r s message Hs).
      * simpl. unfold tell. rewrite Hs. apply sendToClient_send.
    + destruct data as [[]|]; simpl; unfold tell; by rewrite ?Hs.
  - simpl. unfold with_session. by destruct (heap w !! r).
  - simpl. unfold with_session. destruct (heap w !! r) as [s|] eqn:Hs; [|done].
    unfold bind, client_closes, modify, onClientClose, with_session. simpl.
    rewrite Hs. by destruct (openaiWs s).
  - done.
  - simpl effect. destruct (upstreams w !! ws) as [up|] eqn:Hup.
    + destruct (decide (readyState up = CONNECTING)) as [Hst|Hst].
      * rewrite (fire_UpstreamOpened w ws up Hup Hst).
        unfold onOpen, with_session. simpl heap.
        destruct (heap w !! owner up) as [s|]; [|done].
        unfold bind at 1.
        rewrite (ws_send_open ws _ _ (set_readyState OPEN up));
          [|by simpl; rewrite list_lookup_alter_eq, Hup|done].
        unfold bind. rewrite sendToClient_send.
        by destruct (config_agentSpeaksFirst (config s)).
      * simpl. unfold with_upstream. rewrite Hup.
        unfold bind, ws_opens. rewrite Hup. by rewrite decide_False.
    + simpl. unfold with_upstream. by rewrite Hup.
  - simpl. unfold with_upstream. destruct (upstreams w !! ws) as [up|]; [|done].
    rewrite onUpstreamMessage_effect. by destruct data.
  - simpl effect. destruct (upstreams w !! ws) as [up|] eqn:Hup.
    + destruct (decide (readyState up = CLOSED)) as [Hst|Hst].
      * simpl. unfold with_upstream. rewrite Hup.
        unfold bind, ws_fails. rewrite Hup. by rewrite decide_True.
      * rewrite (fire_UpstreamErrored w ws up Hup Hst).
        unfold onUpstreamError, with_session, tell.
        destruct (heap _ !! owner up); [apply sendToClient_send|done].
    + simpl. unfold with_upstream. by rewrite Hup.
  - simpl effect. destruct (upstreams w !! ws) as [up|] eqn:Hup.
    + destruct (decide (readyState up = CLOSED)) as [Hst|Hst].
      * simpl. unfold with_upstream. rewrite Hup.
        unfold bind, ws_closes. rewrite Hup. by rewrite decide_True.
      * rewrite (fire_UpstreamClosed w ws up Hup Hst).
        unfold onUpstreamClose, with_session, tell, set_handle.
        destruct (heap _ !! owner up) as [s|] eqn:Hs.
        -- unfold bind. by rewrite sendToClient_send.
        -- f_equal. unfold set_heap. simpl in *.
           rewrite list_alter_None by done. done.
    + simpl. unfold with_upstream. by rewrite Hup.
  - simpl. unfold bind at 1. unfold timer_due.
    destruct (decide (ws ∈ timers w)); [|done]. simpl.
    unfold onTimeout, bind, ws_readyState, gets. simpl.
    destruct (decide _) as [Hopen|]; [|done].
    destruct (upstreams w !! ws) as [up|] eqn:Hup; [|done].
    apply (ws_send_open ws _ _ up); [done|]. simpl in Hopen. congruence.
Qed.

Lemma run_effect (events : list Event) (w : World) :
  run events w = (Ok tt, foldl (fun w e => effect e w) w events).
Proof.
  revert w. induction events as [|e events IH]; intros w; [done|].
  simpl. unfold bind. by rewrite fire_effect, IH.
Qed.

Lemma foldl_invariant (P : World -> Prop) (events : list Event) (w : World) :
  (forall e w, P w -> P (effect e w)) ->
  P w -> P (foldl (fun w e => effect e w) w events).
Proof.
  intros Hstep. revert w.
  induction events as [|e events IH]; intros w Hw; [done|].
  simpl. apply IH, Hstep, Hw.
Qed.

(** ** [session.end], and the [close] event it causes *)

(** C1, the claim as it stands fails.  A client whose session is ready sends
    one [session.end]: the dispatcher calls [close()] on the upstream link
    and writes [session.ended]; when the [close] event of that link arrives,
    the [close] listener writes [session.ended] once more.  One
    [session.end] was received, and the client is sent two
    [session.ended]. *)
Lemma session_ended_sent_twice_for_one_session_end :
  heap (ready false) !! 0 = Some (demo_session false)
  /\ clients (ready false) !! 0 = Some OPEN
  /\ readyState <$> upstreams (snd (handleClientMessage 0 SessionEnd (ready false))) !! 0
     = Some CLOSING
  /\ run [ClientData 0 (Some SessionEnd); UpstreamClosed 0] (ready false)
     = (Ok tt, snd (run [ClientData 0 (Some SessionEnd); UpstreamClosed 0] (ready false)))
  /\ client_inbox 0 (snd (run [ClientData 0 (Some SessionEnd); UpstreamClosed 0]
                            (ready false)))
     = (client_inbox 0 (ready false) ++ [SessionEnded; SessionEnded])%list.
Proof. vm_compute. repeat split. Qed.

(** C1, amended.  A [session.end] from a connected client makes the
    dispatcher return normally and write exactly one [session.ended] to that
    client, whether or not an upstream link was attached; an attached link
    has [close()] called on it and the handle is null afterwards.  A second
    [session.end] finds the handle null, returns normally as well and writes
    one more [session.ended].  With no link attached, that one message is
    all the [session.end] does.  With a link attached that had not closed
    yet, the [close] event of the link follows, and its listener writes one
    further [session.ended] to the client. *)
Theorem session_end_reports_once_and_link_close_once_more
    (w : World) (r : nat) (s : ClientSession) :
  heap w !! r = Some s ->
  clients w !! clientWs s = Some OPEN ->
  let w1 := snd (handleClientMessage r SessionEnd w) in
  let w2 := snd (handleClientMessage r SessionEnd w1) in
  fst (handleClientMessage r SessionEnd w) = Ok tt /\
  wire w1 = (wire w ++ [ToClient (clientWs s) SessionEnded])%list /\
  openaiWs <$> heap w1 !! r = Some None /\
  (forall ws, openaiWs s = Some ws ->
     readyState <$> upstreams w1 !! ws
     = close_state <$> (readyState <$> upstreams w !! ws)) /\
  (openaiWs s = None -> w1 = emit (ToClient (clientWs s) SessionEnded) w) /\
  fst (handleClientMessage r SessionEnd w1) = Ok tt /\
  wire w2 = (wire w1 ++ [ToClient (clientWs s) SessionEnded])%list /\
  upstreams w2 = upstreams w1 /\ heap w2 = heap w1 /\
  (forall ws up, openaiWs s = Some ws -> upstreams w !! ws = Some up ->
     owner up = r -> readyState up <> CLOSED ->
     fst (fire (UpstreamClosed ws) w1) = Ok tt /\
     wire (snd (fire (UpstreamClosed ws) w1))
     = (wire w ++ [ToClient (clientWs s) SessionEnded;
                   ToClient (clientWs s) SessionEnded])%list).
Proof.
  intros Hs Hopen.
  destruct (handleClientMessage_session_end w r s Hs Hopen)
    as (Hok & Hwire & Hnull & Hclose & _ & Hok2 & Hwire2 & Hup2 & Hheap2).
  cbv zeta. repeat (split; [done|]).
  split.
  { intros Hnone. rewrite (handleClientMessage_effect w r s _ Hs).
    simpl. rewrite Hs, Hnone. unfold send. by rewrite decide_True. }
  repeat (split; [done|]).
  intros ws up Hws Hup Hown Hst.
  rewrite (handleClientMessage_effect w r s _ Hs), fire_effect. cbn [fst snd].
  split; [done|].
  assert (effect (ClientData r (Some SessionEnd)) w
          = emit (ToClient (clientWs s) SessionEnded)
              (set_handle r None (close_link ws w))) as ->.
  { simpl. rewrite Hs, Hws. unfold send. simpl. by rewrite decide_True. }
  set (w1 := emit _ _).
  assert (upstreams w1 !! ws = Some (set_readyState (close_state (readyState up)) up))
    as Hup1 by (subst w1; simpl; by rewrite list_lookup_alter_eq, Hup).
  assert (heap w1 !! r = Some (set_openaiWs None s)) as Hs1
    by (subst w1; simpl; by rewrite list_lookup_alter_eq, Hs).
  assert (clients w1 = clients w) as Hc1 by done.
  unfold effect. rewrite Hup1.
  rewrite decide_False by (by destruct (readyState up)).
  cbn [owner set_readyState]. rewrite Hown.
  unfold tell, set_handle, become. cbn [heap set_upstreams set_heap].
  rewrite Hs1. cbn [clientWs set_openaiWs].
  unfold send. cbn [clients set_upstreams]. rewrite Hc1, decide_True by done.
  subst w1. simpl. by rewrite <- app_assoc.
Qed.

Lemma session_end_reports_once_and_link_close_once_more_witness :
  heap (ready false) !! 0 = Some (demo_session false)
  /\ clients (ready false) !! clientWs (demo_session false) = Some OPEN
  /\ wire (snd (handleClientMessage 0 SessionEnd (ready false)))
     = (wire (ready false) ++ [ToClient 0 SessionEnded])%list.
Proof.
  split; [reflexivity|]. split; [reflexivity|].
  exact (proj1 (proj2 (session_end_reports_once_and_link_close_once_more
                         (ready false) 0 (demo_session false) eq_refl eq_refl))).
Defined.

(** ** The registry *)

Lemma ids_alter (f : ClientSession -> ClientSession) (l : list ClientSession) (r r' : nat) :
  (forall s, ids (f s) = ids s) ->
  ids <$> alter f r l !! r' = ids <$> l !! r'.
Proof.
  intros Hf. destruct (decide (r = r')) as [<-|Hne].
  - rewrite list_lookup_alter_eq. destruct (l !! r); simpl; [|done]. by rewrite Hf.
  - by rewrite list_lookup_alter_ne.
Qed.

(** Only the [connection] and the client [close] listeners touch the
    registry and the identity of a session object; besides them, only the
    closing of a client connection touches the client sockets. *)
Lemma effect_frame (e : Event) (w : World) :
  (forall sid, e <> Connection sid) -> (forall r, e <> ClientClosed r) ->
  sessions (effect e w) = sessions w /\
  ((forall r, e <> ClientClosing r) -> clients (effect e w) = clients w) /\
  forall r, ids <$> heap (effect e w) !! r = ids <$> heap w !! r.
Proof.
  intros Hconn Hclose.
  destruct e as [sid|r [[cfg|audio| |]|]|r|r|r|ws|ws data|ws|ws|ws];
    try (by destruct (Hconn sid)); try (by destruct (Hclose r));
    unfold effect, tell, send, set_handle;
    repeat case_match; simpl; repeat split; try done;
    try (by intros Hclosing; destruct (Hclosing r));
    intros r'; rewrite ?ids_alter; done.
Qed.

Lemma registry_live_frame (w w' : World) :
  sessions w' = sessions w -> clients w' = clients w ->
  (forall r, ids <$> heap w' !! r = ids <$> heap w !! r) ->
  registry_live w -> registry_live w'.
Proof.
  intros Hsess Hcl Hids (Hlen & Hws & Hreg).
  assert (forall r s', heap w' !! r = Some s' ->
            exists s, heap w !! r = Some s /\ ids s' = ids s) as Hback.
  { intros r s' Hs'. specialize (Hids r). rewrite Hs' in Hids.
    destruct (heap w !! r) as [s|]; [|done]. exists s. split; [done|].
    simpl in Hids. congruence. }
  assert (forall r s, heap w !! r = Some s ->
            exists s', heap w' !! r = Some s' /\ ids s' = ids s) as Hforth.
  { intros r s Hs. specialize (Hids r). rewrite Hs in Hids.
    destruct (heap w' !! r) as [s'|]; [|done]. exists s'. split; [done|].
    simpl in Hids. congruence. }
  split; [|split].
  - rewrite Hcl, <- Hlen. apply Nat.le_antisymm.
    + destruct (decide (length (heap w') <= length (heap w))) as [|Hgt]; [done|].
      destruct (lookup_lt_is_Some_2 (heap w') (length (heap w))) as [s' Hs']; [lia|].
      destruct (Hback _ _ Hs') as (s & Hs & _).
      apply lookup_lt_Some in Hs. lia.
    + destruct (decide (length (heap w) <= length (heap w'))) as [|Hgt]; [done|].
      destruct (lookup_lt_is_Some_2 (heap w) (length (heap w'))) as [s Hs]; [lia|].
      destruct (Hforth _ _ Hs) as (s' & Hs' & _).
      apply lookup_lt_Some in Hs'. lia.
  - intros r s' Hs'. destruct (Hback _ _ Hs') as (s & Hs & [= Hc _]).
    rewrite Hc. by apply (Hws r).
  - intros sid r Hr. rewrite Hsess in Hr.
    destruct (Hreg sid r Hr) as (s & st & Hs & Hid & Hopen & Hst).
    destruct (Hforth _ _ Hs) as (s' & Hs' & [= Hc Hi]).
    exists s', st. rewrite Hcl, Hc, Hi. done.
Qed.

Lemma registry_live_effect (e : Event) (w : World) :
  registry_live w -> registry_live (effect e w).
Proof.
  intros Hw.
  assert ((forall sid, e <> Connection sid) -> (forall r, e <> ClientClosed r) ->
          (forall r, e <> ClientClosing r) ->
          registry_live (effect e w)) as Hframe.
  { intros Hconn Hclose Hclosing.
    destruct (effect_frame e w Hconn Hclose) as (Hsess & Hcl & Hids).
    apply (registry_live_frame w); auto. }
  destruct e as [sid|r data|r|r|r|ws|ws data|ws|ws|ws]; try by apply Hframe.
  - destruct Hw as (Hlen & Hws & Hreg). simpl. split; [|split]; simpl.
    + rewrite !length_app. simpl. lia.
    + intros r s [Hs|[Hr Hs]]%lookup_app_Some.
      * by apply Hws.
      * destruct (r - length (heap w)) eqn:Hd; simpl in Hs; [|done].
        injection Hs as <-. simpl. lia.
    + intros sid' r. destruct (decide (sid = sid')) as [<-|Hne].
      * rewrite lookup_insert_eq. intros [= <-].
        exists (mkSession (length (clients w)) None sid None), OPEN. split.
        -- by rewrite lookup_app_r, Nat.sub_diag.
        -- simpl. split; [done|]. split; [|by left].
           by rewrite lookup_app_r, Nat.sub_diag.
      * rewrite lookup_insert_ne by done. intros Hr.
        destruct (Hreg sid' r Hr) as (s & st & Hs & Hid & Hopen & Hst).
        exists s, st.
        split; [by apply lookup_app_l_Some|]. split; [done|].
        split; [by apply lookup_app_l_Some|done].
  - destruct Hw as (Hlen & Hws & Hreg). simpl.
    destruct (heap w !! r) as [s|] eqn:Hs; [|done].
    split; [|split]; simpl.
    + by rewrite length_alter.
    + done.
    + intros sid r' Hr'.
      destruct (Hreg sid r' Hr') as (s' & st & Hs' & Hid & Hopen & Hst).
      destruct (decide (clientWs s = clientWs s')) as [Heq|Hne].
      * exists s', (close_state st). split; [done|]. split; [done|].
        rewrite Heq, list_lookup_alter_eq, Hopen. split; [done|].
        right. by destruct Hst as [-> | ->].
      * exists s', st. split; [done|]. split; [done|].
        by rewrite list_lookup_alter_ne.
  - destruct Hw as (Hlen & Hws & Hreg). simpl.
    destruct (heap w !! r) as [s|] eqn:Hs; [|done].
    pose proof (Hws r s Hs) as Hc.
    assert (forall w1, heap w1 = heap w ->
              clients w1 = <[clientWs s := CLOSED]> (clients w) ->
              sessions w1 = sessions w ->
              registry_live (set_sessions (delete (sessionId s)) w1)) as Hgoal.
    { intros w1 Hh Hcl Hsess. split; [|split]; simpl; rewrite ?Hh, ?Hcl, ?Hsess.
      - by rewrite length_insert.
      - done.
      - intros sid r' Hr'. destruct (decide (sessionId s = sid)) as [<-|Hne].
        + by rewrite lookup_delete_eq in Hr'.
        + rewrite lookup_delete_ne in Hr' by done.
          destruct (Hreg sid r' Hr') as (s' & st & Hs' & Hid & Hopen & Hst).
          exists s', st. split; [done|]. split; [done|]. split; [|done].
          rewrite list_lookup_insert_ne; [done|].
          rewrite Hc, (Hws r' s' Hs'). intros <-. congruence. }
    destruct (openaiWs s); by apply Hgoal.
Qed.

(** X1. Accepting a connection creates a session without configuration
    and without upstream handle, registers it under the identifier drawn for
    it, and writes exactly [session.created] with that identifier to the new
    socket; the sessions, sockets and registry entries that existed stay as
    they were. *)
Theorem connection_registers_a_fresh_session (sid : string) (w : World) :
  let w' := snd (fire (Connection sid) w) in
  let r := length (heap w) in
  let c := length (clients w) in
  fst (fire (Connection sid) w) = Ok tt /\
  sessions w' !! sid = Some r /\
  heap w' !! r = Some (mkSession c None sid None) /\
  clients w' !! c = Some OPEN /\
  wire w' = (wire w ++ [ToClient c (SessionCreated sid)])%list /\
  (forall sid', sid' <> sid -> sessions w' !! sid' = sessions w !! sid') /\
  (forall r', r' < r -> heap w' !! r' = heap w !! r') /\
  (forall c', c' < c -> clients w' !! c' = clients w !! c') /\
  upstreams w' = upstreams w /\ timers w' = timers w.
Proof.
  rewrite fire_effect. simpl. repeat split.
  - apply lookup_insert_eq.
  - by rewrite lookup_app_r, Nat.sub_diag.
  - by rewrite lookup_app_r, Nat.sub_diag.
  - intros sid' Hne. by apply lookup_insert_ne.
  - intros r' Hlt. by apply lookup_app_l.
  - intros c' Hlt. by apply lookup_app_l.
Qed.

(** X2. Connect, then disconnect: when the identifier was not registered
    before, the registry after the client's [close] is exactly the registry
    from before the connection, whatever messages, upstream events and
    timeouts came in between. *)
Theorem connect_then_close_restores_the_registry
    (sid : string) (events : list Event) (w : World) :
  sessions w !! sid = None ->
  (forall e, e ∈ events ->
     (forall sid', e <> Connection sid') /\ (forall r, e <> ClientClosed r)) ->
  let r := length (heap w) in
  sessions (snd (run (Connection sid :: events ++ [ClientClosed r]) w)) = sessions w.
Proof.
  intros Hfresh Hevents r.
  rewrite run_effect. cbn [snd foldl]. rewrite foldl_app. cbn [foldl].
  set (w1 := effect (Connection sid) w).
  assert (forall w2,
            sessions w2 = sessions w1 ->
            ids <$> heap w2 !! r = Some (length (clients w), sid) ->
            sessions (foldl (fun w e => effect e w) w2 events) = sessions w1 /\
            ids <$> heap (foldl (fun w e => effect e w) w2 events) !! r
            = Some (length (clients w), sid)) as Hmid.
  { clear Hfresh. induction events as [|e events IH]; intros w2 Hs2 Hi2; [done|].
    simpl. destruct (Hevents e) as [Hconn Hclose]; [by left|].
    destruct (effect_frame e w2 Hconn Hclose) as (Hsess & _ & Hids).
    apply IH.
    - intros e' He'. apply Hevents. by right.
    - congruence.
    - by rewrite Hids. }
  destruct (Hmid w1) as [Hsess Hids]; [done| |].
  { subst w1 r. simpl. by rewrite lookup_app_r, Nat.sub_diag. }
  set (w2 := foldl (fun w e => effect e w) w1 events) in *.
  unfold effect at 1.
  destruct (heap w2 !! r) as [s|]; [|done].
  injection Hids as Hc Hid.
  assert (forall w3, sessions w3 = sessions w1 ->
            sessions (set_sessions (delete (sessionId s)) w3) = sessions w) as Hgoal.
  { intros w3 H3. simpl. rewrite H3. subst w1. simpl. rewrite Hid.
    by rewrite delete_insert_eq, delete_id. }
  cbv zeta. destruct (openaiWs s); by apply Hgoal.
Qed.

(** X3. In every run of the relay the registry holds live sessions only:
    each entry leads to a session object with the identifier of the entry,
    whose client socket has not emitted [close] yet: the socket is open, or
    closing once the client's close frame has arrived, and never closed. *)
Theorem registry_holds_live_sessions_only
    (apiKey : option string) (events : list Event) (sid : string) (r : nat) :
  sessions (snd (run events (boot apiKey))) !! sid = Some r ->
  exists s st, heap (snd (run events (boot apiKey))) !! r = Some s /\
               sessionId s = sid /\
               clients (snd (run events (boot apiKey))) !! clientWs s = Some st /\
               (st = OPEN \/ st = CLOSING).
Proof.
  rewrite run_effect. simpl.
  assert (registry_live (foldl (fun w e => effect e w) (boot apiKey) events)) as Hlive.
  { apply foldl_invariant; [apply registry_live_effect|].
    split; [done|]. split; [by intros r' s' [=]|]. by intros sid' r' [=]. }
  apply Hlive.
Qed.

(** ** What reaches which socket *)

Lemma upstream_inbox_emit (u : nat) (o : Output) (w : World) :
  upstream_inbox u (emit o w)
  = (upstream_inbox u w ++ from_option (fun m => [m]) [] (to_upstream u o))%list.
Proof.
  unfold upstream_inbox. simpl. rewrite omap_app. simpl.
  by destruct (to_upstream u o).
Qed.

Lemma client_inbox_emit (c : nat) (o : Output) (w : World) :
  client_inbox c (emit o w)
  = (client_inbox c w ++ from_option (fun m => [m]) [] (to_client c o))%list.
Proof.
  unfold client_inbox. simpl. rewrite omap_app. simpl.
  by destruct (to_client c o).
Qed.

Lemma upstream_inbox_send (u c : nat) (m : ServerMessage) (w : World) :
  upstream_inbox u (send c m w) = upstream_inbox u w.
Proof.
  unfold send. destruct (decide _); [|done].
  rewrite upstream_inbox_emit. simpl. apply app_nil_r.
Qed.

Lemma upstream_inbox_tell (u r : nat) (m : ServerMessage) (w : World) :
  upstream_inbox u (tell r m w) = upstream_inbox u w.
Proof. unfold tell. destruct (heap w !! r); [apply upstream_inbox_send|done]. Qed.

(** ** Without a credential *)

Lemma handles_alter (f : ClientSession -> ClientSession) (l : list ClientSession) (r : nat) :
  (forall s, openaiWs s = None -> openaiWs (f s) = None) ->
  (forall r' s, l !! r' = Some s -> openaiWs s = None) ->
  forall r' s, alter f r l !! r' = Some s -> openaiWs s = None.
Proof.
  intros Hf Hl r' s. destruct (decide (r = r')) as [<-|Hne].
  - rewrite list_lookup_alter_eq. destruct (l !! r) as [s0|] eqn:Hs0; [|done].
    intros [= <-]. eapply Hf, Hl, Hs0.
  - rewrite list_lookup_alter_ne by done. apply Hl.
Qed.

(** X4. A relay started without a credential never reaches the API: in
    every run no upstream socket is ever created, no greeting is ever
    scheduled, every session's upstream handle is null and nothing is ever
    written upstream. *)
Theorem no_credential_no_upstream
    (apiKey : option string) (events : list Event) :
  missing apiKey = true ->
  let w := snd (run events (boot apiKey)) in
  upstreams w = [] /\
  timers w = [] /\
  (forall r s, heap w !! r = Some s -> openaiWs s = None) /\
  (forall u, upstream_inbox u w = []).
Proof.
  intros Hkey. rewrite run_effect. cbn [snd].
  pose (P := fun w : World =>
     missing (OPENAI_API_KEY w) = true /\ upstreams w = [] /\ timers w = [] /\
     (forall r s, heap w !! r = Some s -> openaiWs s = None) /\
     (forall u, upstream_inbox u w = [])).
  assert (P (foldl (fun w e => effect e w) (boot apiKey) events)) as (_ & Hw).
  { apply (foldl_invariant P); [|done].
    clear. intros e w (Hkey & Hup & Htm & Hh & Hin).
    assert (forall c m w', P w' -> P (send c m w')) as Hsend.
    { intros c m w' (? & ? & ? & ? & Hin'). unfold send.
      destruct (decide _); [|done]. repeat split; try done.
      intros u. rewrite upstream_inbox_emit. simpl. by rewrite Hin'. }
    assert (forall f r, (forall s, openaiWs s = None -> openaiWs (f s) = None) ->
              P (set_heap (alter f r) w)) as Halter.
    { intros f r Hf. repeat split; try done. simpl. by apply handles_alter. }
    destruct e as [sid|r [[cfg|audio| |]|]|r|r|r|ws|ws data|ws|ws|ws];
      unfold effect, tell, set_handle, close_link; simpl;
      rewrite ?Hup, ?Htm, ?Hkey; simpl; try done.
    all: try (destruct (heap w !! r) as [s|] eqn:Hs; [|done]).
    all: try rewrite (Hh r s Hs).
    all: try (apply Hsend); try (by apply Halter); try done.
    repeat split; try done.
    - simpl. intros r s [Hs|[_ Hs]]%lookup_app_Some; [by eapply Hh|].
      destruct (r - length (heap w)); simpl in Hs; [|done]. by injection Hs as <-.
    - intros u. rewrite upstream_inbox_emit. simpl. rewrite app_nil_r. apply (Hin u). }
  exact Hw.
Qed.

(** ** What an upstream socket is sent, and in which order *)

Lemma link_le_refl (o : option UpstreamSocket) : link_le o o.
Proof. destruct o; simpl; auto. Qed.

Lemma link_le_alter (f : UpstreamSocket -> UpstreamSocket) (l : list UpstreamSocket) (u u' : nat) :
  (forall up, owner (f up) = owner up /\
              (readyState (f up) = readyState up \/ readyState (f up) = CLOSING
               \/ readyState (f up) = CLOSED)) ->
  link_le (l !! u') (alter f u l !! u').
Proof.
  intros Hf. destruct (decide (u = u')) as [<-|Hne].
  - rewrite list_lookup_alter_eq. destruct (l !! u); simpl; [apply Hf|done].
  - rewrite list_lookup_alter_ne by done. apply link_le_refl.
Qed.

Lemma is_Some_alter {A} (f : A -> A) (l : list A) (i j : nat) :
  is_Some (l !! j) -> is_Some (alter f i l !! j).
Proof.
  intros [x Hx]. destruct (decide (i = j)) as [<-|Hne].
  - rewrite list_lookup_alter_eq, Hx. by eexists.
  - rewrite list_lookup_alter_ne by done. by eexists.
Qed.

Lemma effect_upstream_frame (e : Event) (w : World) (u : nat) :
  (forall r cfg, e <> ClientData r (Some (SessionStart cfg))) ->
  (forall r audio, e <> ClientData r (Some (AudioInput audio))) ->
  (forall ws, e <> UpstreamOpened ws) ->
  (forall ws, e <> TimerFired ws) ->
  upstream_inbox u (effect e w) = upstream_inbox u w /\
  timers (effect e w) = timers w /\
  (forall r, is_Some (heap w !! r) -> is_Some (heap (effect e w) !! r)) /\
  link_le (upstreams w !! u) (upstreams (effect e w) !! u).
Proof.
  intros Hstart Haudio Hopen Htimer.
  destruct e as [sid|r [[cfg|audio| |]|]|r|r|r|ws|ws data|ws|ws|ws];
    try (by destruct (Hstart r cfg)); try (by destruct (Haudio r audio));
    try (by destruct (Hopen ws)); try (by destruct (Htimer ws)).
  all: unfold effect, tell, send, set_handle, close_link, become.
  all: repeat case_match; simpl.
  all: rewrite ?upstream_inbox_emit; simpl; rewrite ?app_nil_r.
  all: repeat split; try done; try apply link_le_refl.
  all: try (intros r'; apply is_Some_alter).
  all: try (apply link_le_alter; intros up'; simpl; split; [done|]).
  all: try (destruct (readyState up'); simpl; by auto).
  all: try (by auto).
  - intros r' [s Hs]. exists s. by apply lookup_app_l_Some.
  - unfold upstream_inbox. simpl. rewrite omap_app. simpl. apply app_nil_r.
Qed.

Lemma socket_ok_frame (w w' : World) (u : nat) :
  upstream_inbox u w' = upstream_inbox u w ->
  timers w' = timers w ->
  (forall r, is_Some (heap w !! r) -> is_Some (heap w' !! r)) ->
  link_le (upstreams w !! u) (upstreams w' !! u) ->
  socket_ok w u -> socket_ok w' u.
Proof.
  unfold socket_ok. intros -> -> Hheap Hle (Hneg & Hcount & Hst).
  split; [done|]. split; [done|].
  destruct (upstreams w !! u) as [up|], (upstreams w' !! u) as [up'|];
    simpl in Hle; try done.
  destruct Hle as [Ho Hrs], Hst as (Hown & Hconn & Hopen).
  rewrite Ho. split; [by apply Hheap|].
  split; intros Hst'; [apply Hconn|apply Hopen];
    destruct Hrs as [<-|[|]]; congruence.
Qed.


Lemma count_remove_first_ne (x y : nat) (l : list nat) :
  x <> y -> count_occ Nat.eq_dec (remove_first x l) y = count_occ Nat.eq_dec l y.
Proof.
  intros Hne. induction l as [|z l IH]; [done|]. simpl.
  destruct (decide (x = z)) as [<-|Hxz].
  - by destruct (Nat.eq_dec x y).
  - simpl. by rewrite IH.
Qed.

Lemma count_remove_first_eq (x : nat) (l : list nat) :
  x ∈ l ->
  S (count_occ Nat.eq_dec (remove_first x l) x) = count_occ Nat.eq_dec l x.
Proof.
  induction l as [|z l IH]; [by intros ?%elem_of_nil|]. simpl.
  intros Hin. destruct (decide (x = z)) as [<-|Hxz].
  - by destruct (Nat.eq_dec x x).
  - simpl. destruct (Nat.eq_dec z x); [congruence|].
    apply IH. by apply elem_of_cons in Hin as [|].
Qed.

Lemma count_snoc (l : list nat) (x y : nat) :
  count_occ Nat.eq_dec (l ++ [x])%list y
  = count_occ Nat.eq_dec l y + (if decide (x = y) then 1 else 0).
Proof.
  rewrite count_occ_app. simpl.
  destruct (Nat.eq_dec x y), (decide (x = y)); done.
Qed.

Lemma greetings_snoc (l : list Upstream.Message) (m : Upstream.Message) :
  length (filter (fun m => is_greeting m = true) (l ++ [m])%list)
  = length (filter (fun m => is_greeting m = true) l)
    + (if is_greeting m then 1 else 0).
Proof.
  rewrite filter_app, length_app. f_equal.
  rewrite filter_cons. destruct (is_greeting m); by destruct (decide _).
Qed.

Lemma negotiated_snoc (l : list Upstream.Message) (m : Upstream.Message) :
  l <> [] -> negotiated l -> is_update m = false ->
  length (filter (fun m => is_greeting m = true) l) + (if is_greeting m then 1 else 0) <= 1 ->
  negotiated (l ++ [m])%list.
Proof.
  destruct l as [|m0 rest]; [done|]. intros _ (Hm0 & Hrest & Hg) Hm Hcount.
  simpl. split; [done|]. split.
  - apply Forall_app. split; [done|]. by constructor.
  - rewrite greetings_snoc.
    rewrite filter_cons in Hcount.
    destruct m0; simpl in *; done.
Qed.

Lemma socket_ok_effect (e : Event) (w : World) :
  (forall u, socket_ok w u) -> forall u, socket_ok (effect e w) u.
Proof.
  intros Hw u.
  assert ((forall r cfg, e <> ClientData r (Some (SessionStart cfg))) ->
          (forall r audio, e <> ClientData r (Some (AudioInput audio))) ->
          (forall ws, e <> UpstreamOpened ws) ->
          (forall ws, e <> TimerFired ws) ->
          socket_ok (effect e w) u) as Hframe.
  { intros H1 H2 H3 H4.
    destruct (effect_upstream_frame e w u H1 H2 H3 H4) as (Hi & Ht & Hh & Hl).
    by apply (socket_ok_frame w). }
  destruct e as [sid|r [[cfg|audio| |]|]|r|r|r|ws|ws data|ws|ws|ws]; try by apply Hframe.
  - (* session.start *)
    simpl. destruct (heap w !! r) as [s|] eqn:Hs; [|done].
    destruct (missing (OPENAI_API_KEY w)).
    + apply (socket_ok_frame w); try done.
      * by rewrite upstream_inbox_send.
      * unfold send. by destruct (decide _).
      * intros r' Hr'. unfold send. destruct (decide _); simpl; by apply is_Some_alter.
      * unfold send. destruct (decide _); apply link_le_refl.
    + specialize (Hw u). unfold socket_ok in *. simpl.
      change (upstream_inbox u (set_handle _ _ _)) with (upstream_inbox u w).
      destruct Hw as (Hneg & Hcount & Hst). split; [done|]. split; [done|].
      destruct (upstreams w !! u) as [up|] eqn:Hup.
      * rewrite (lookup_app_l_Some _ _ _ _ Hup).
        destruct Hst as (Hown & Hrest). split; [|done].
        by apply is_Some_alter, is_Some_alter.
      * apply lookup_ge_None in Hup.
        destruct (decide (u = length (upstreams w))) as [->|Hne].
        -- rewrite lookup_app_r, Nat.sub_diag by done. simpl.
           split; [|done]. apply is_Some_alter, is_Some_alter. by eexists.
        -- rewrite lookup_ge_None_2; [done|]. rewrite length_app. simpl. lia.
  - (* audio.input *)
    simpl. destruct (heap w !! r) as [s|] eqn:Hs; [|done].
    destruct (openaiWs s) as [ws|]; [|done].
    destruct (decide _) as [Hopen|]; [|done].
    destruct (upstreams w !! ws) as [up|] eqn:Hup; [|done].
    assert (readyState up = OPEN) as Hst by (simpl in Hopen; congruence).
    specialize (Hw u). unfold socket_ok in *. simpl.
    rewrite upstream_inbox_emit. simpl.
    destruct (decide (ws = u)) as [->|Hne]; [|by rewrite app_nil_r].
    simpl. rewrite Hup in *. destruct Hw as (Hneg & Hcount & Hown & Hconn & Hop).
    specialize (Hop Hst). rewrite greetings_snoc. simpl.
    split; [apply negotiated_snoc; simpl; try done; lia|].
    split; [lia|]. split; [done|]. split; [congruence|].
    intros _. by destruct (upstream_inbox u w).
  - (* open *)
    simpl. destruct (upstreams w !! ws) as [up|] eqn:Hup; [|done].
    destruct (decide _) as [Hst|]; [|done].
    pose proof (Hw ws) as Hws. unfold socket_ok in Hws. rewrite Hup in Hws.
    destruct Hws as (_ & _ & [s Hs] & Hconn & _).
    destruct (Hconn Hst) as [Hempty Hpending]. rewrite Hs.
    specialize (Hw u). unfold socket_ok in *.
    assert (forall w1, wire w1 = wire w -> 
       upstream_inbox u (send (clientWs s) SessionReady
                           (emit (ToUpstream ws (sessionUpdate s)) w1))
       = (upstream_inbox u w ++ if decide (ws = u) then [sessionUpdate s] else [])%list)
      as Hinbox.
    { intros w1 Hw1. rewrite upstream_inbox_send, upstream_inbox_emit.
      unfold upstream_inbox. rewrite Hw1. simpl. by destruct (decide _). }
    assert (forall w1 : World, upstreams w1 = alter (set_readyState OPEN) ws (upstreams w) ->
              heap w1 = heap w ->
              upstreams (send (clientWs s) SessionReady
                           (emit (ToUpstream ws (sessionUpdate s)) w1)) = upstreams w1
              /\ heap (send (clientWs s) SessionReady
                           (emit (ToUpstream ws (sessionUpdate s)) w1)) = heap w
              /\ timers (send (clientWs s) SessionReady
                           (emit (ToUpstream ws (sessionUpdate s)) w1)) = timers w1)
      as Hsame.
    { intros w1 Hu1 Hh1. unfold send.
      destruct (decide (clients _ !! _ = _)); simpl; repeat split; auto. }
    set (w1 := become OPEN ws w).
    destruct (Hsame w1 eq_refl eq_refl) as (Hu2 & Hh2 & Ht2).
    set (w2 := send (clientWs s) SessionReady (emit (ToUpstream ws (sessionUpdate s)) w1)) in *.
    assert (upstream_inbox u ((if config_agentSpeaksFirst (config s)
                               then set_timers (fun l => (l ++ [ws])%list) else id) w2)
            = upstream_inbox u w2) as -> by (by destruct (config_agentSpeaksFirst _)).
    assert (upstreams ((if config_agentSpeaksFirst (config s)
                        then set_timers (fun l => (l ++ [ws])%list) else id) w2)
            = upstreams w2) as -> by (by destruct (config_agentSpeaksFirst _)).
    assert (heap ((if config_agentSpeaksFirst (config s)
                   then set_timers (fun l => (l ++ [ws])%list) else id) w2)
            = heap w2) as -> by (by destruct (config_agentSpeaksFirst _)).
    assert (count_occ Nat.eq_dec
              (timers ((if config_agentSpeaksFirst (config s)
                        then set_timers (fun l => (l ++ [ws])%list) else id) w2)) u
            <= count_occ Nat.eq_dec (timers w) u + (if decide (ws = u) then 1 else 0))
      as Htimers.
    { destruct (config_agentSpeaksFirst _); simpl; rewrite Ht2; simpl.
      - by rewrite count_snoc.
      - lia. }
    subst w2. rewrite (Hinbox w1 eq_refl), Hu2, Hh2. subst w1. simpl.
    destruct (decide (ws = u)) as [->|Hne].
    + rewrite list_lookup_alter_eq, Hup. simpl. rewrite Hempty in *. simpl.
      rewrite Hpending in Htimers.
      split; [repeat split; simpl; auto|]. split; [lia|].
      split; [by eexists|]. split; [done|]. done.
    + rewrite list_lookup_alter_ne by done. rewrite app_nil_r.
      destruct Hw as (Hneg & Hcount & Hstate). split; [done|]. split; [lia|].
      destruct (upstreams w !! u) as [up'|]; [|split; [tauto|lia]].
      destruct Hstate as (Hown & Hc & Ho). split; [done|]. split; [|done].
      intros Hcn. destruct (Hc Hcn). split; [done|lia].
  - (* timer *)
    simpl. destruct (decide (ws ∈ timers w)) as [Hin|]; [|done].
    pose proof (Hw ws) as Hws. unfold socket_ok in Hws.
    pose proof (count_remove_first_eq ws (timers w) Hin) as Hcnt.
    destruct Hws as (Hneg_ws & Hcount_ws & Hst_ws).
    specialize (Hw u). unfold socket_ok in *.
    destruct (decide _) as [Hopen|Hshut].
    + destruct (upstreams w !! ws) as [up|] eqn:Hup; [|done].
      assert (readyState up = OPEN) as Hst by (simpl in Hopen; congruence).
      rewrite upstream_inbox_emit. simpl.
      change (upstream_inbox u (set_timers _ w)) with (upstream_inbox u w).
      destruct (decide (ws = u)) as [->|Hne]; simpl.
      * rewrite Hup in *. destruct Hw as (Hneg & Hcount & Hown & Hconn & Hop).
        rewrite greetings_snoc. simpl.
        split; [apply negotiated_snoc; simpl; auto; lia|].
        split; [lia|]. split; [done|]. split; [congruence|].
        intros _. by destruct (upstream_inbox u w).
      * rewrite app_nil_r, count_remove_first_ne by done. done.
    + change (upstream_inbox u (set_timers _ w)) with (upstream_inbox u w). simpl.
      destruct (decide (ws = u)) as [->|Hne].
      * destruct Hw as (Hneg & Hcount & Hstate). split; [done|]. split; [lia|].
        destruct (upstreams w !! u) as [up|]; [|lia].
        destruct Hstate as (Hown & Hc & Ho). split; [done|]. split; [|done].
        intros Hcn. destruct (Hc Hcn). lia.
      * by rewrite count_remove_first_ne.
Qed.

(** X5. In every run of the relay, what has been written to an upstream
    socket is nothing, or the [session.update] negotiation first and then
    audio and greeting only: no second negotiation, and at most one
    [response.create].  A socket that is still connecting has been written
    nothing. *)
Theorem upstream_socket_gets_negotiation_first
    (apiKey : option string) (events : list Event) (u : nat) :
  let w := snd (run events (boot apiKey)) in
  (upstream_inbox u w = [] \/
   exists negotiation rest,
     upstream_inbox u w = Upstream.SessionUpdate negotiation :: rest /\
     Forall (fun m => is_update m = false) rest /\
     length (filter (fun m => is_greeting m = true) rest) <= 1) /\
  (forall up, upstreams w !! u = Some up -> readyState up = CONNECTING ->
     upstream_inbox u w = []).
Proof.
  rewrite run_effect. cbn [snd].
  assert (forall u, socket_ok (foldl (fun w e => effect e w) (boot apiKey) events) u)
    as Hok.
  { apply (foldl_invariant (fun w => forall u, socket_ok w u)).
    - apply socket_ok_effect.
    - intros u'. unfold socket_ok. simpl. repeat split; auto. }
  destruct (Hok u) as (Hneg & _ & Hst). split.
  - destruct (upstream_inbox u _) as [|m rest]; [by left|]. right.
    destruct Hneg as (Hm & Hrest & Hg). destruct m; try done. by eexists _, _.
  - intros up Hup Hconn. rewrite Hup in Hst. by apply Hst.
Qed.

(** ** What a client is sent first *)

Lemma translate_not_created (event : Value) (m : ServerMessage) :
  translate event = Some m -> is_created m = false.
Proof.
  unfold translate. repeat case_match; try done; by intros [= <-].
Qed.

Lemma effect_client_frame (e : Event) (w : World) (c : nat) :
  (forall sid, e <> Connection sid) ->
  exists out,
    client_inbox c (effect e w) = (client_inbox c w ++ out)%list /\
    Forall (fun m => is_created m = false) out /\
    (out = [] \/ clients w !! c = Some OPEN) /\
    (forall r, ids <$> heap (effect e w) !! r = ids <$> heap w !! r) /\
    (forall c', is_Some (clients (effect e w) !! c') <-> is_Some (clients w !! c')).
Proof.
  intros Hconn.
  destruct e as [sid|r [[cfg|audio| |]|]|r|r|r|ws|ws data|ws|ws|ws];
    try (by destruct (Hconn sid)).
  all: unfold effect, tell, send, set_handle, close_link, become.
  all: repeat case_match; simpl.
  all: unfold client_inbox; simpl; rewrite ?omap_app, <- ?app_assoc; simpl.
  all: first [ eexists; split; [reflexivity|]
             | exists []; split; [by rewrite app_nil_r|] ].
  all: split; [repeat case_decide; simpl; repeat constructor;
               eauto using translate_not_created|].
  all: split; [repeat case_decide; simpl in *; subst; auto|].
  all: split; [intros r'; by rewrite ?ids_alter|].
  all: try done.
  all: intros c'; by rewrite !lookup_lt_is_Some, ?length_insert, ?length_alter.
Qed.

Lemma client_ok_lengths (w : World) :
  (forall c, client_ok w c) -> length (heap w) = length (clients w).
Proof.
  intros Hw. apply Nat.le_antisymm.
  - destruct (decide (length (heap w) <= length (clients w))) as [|Hgt]; [done|].
    destruct (lookup_lt_is_Some_2 (heap w) (length (clients w))) as [s Hs]; [lia|].
    specialize (Hw (length (clients w))). unfold client_ok in Hw. rewrite Hs in Hw.
    destruct Hw as (_ & Hc%lookup_lt_is_Some & _). lia.
  - destruct (decide (length (clients w) <= length (heap w))) as [|Hgt]; [done|].
    specialize (Hw (length (heap w))). unfold client_ok in Hw.
    rewrite (lookup_ge_None_2 (heap w)) in Hw by done.
    destruct Hw as [_ Hc%lookup_ge_None]. lia.
Qed.

Lemma client_ok_effect (e : Event) (w : World) :
  (forall c, client_ok w c) -> forall c, client_ok (effect e w) c.
Proof.
  intros Hw c.
  destruct (match e with Connection _ => true | _ => false end) eqn:He.
  - destruct e as [sid| | | | | | | | |]; try done. clear He.
    pose proof (client_ok_lengths w Hw) as Hlen.
    specialize (Hw c). unfold client_ok in *. simpl.
    rewrite client_inbox_emit. simpl.
    change (client_inbox c (set_sessions _ _)) with (client_inbox c w).
    destruct (decide (c < length (heap w))) as [Hlt|Hge].
    + rewrite lookup_app_l by done.
      destruct (lookup_lt_is_Some_2 (heap w) c Hlt) as [s Hs]. rewrite Hs in *.
      destruct Hw as (Hc & Hcl & rest & Hin & Hrest).
      rewrite decide_False by lia. rewrite app_nil_r.
      split; [done|]. split; [|by exists rest].
      apply lookup_lt_is_Some. rewrite length_app. apply lookup_lt_is_Some in Hcl. lia.
    + rewrite (lookup_ge_None_2 (heap w)) in Hw by lia. destruct Hw as [Hin Hcl].
      rewrite Hin. destruct (decide (c = length (heap w))) as [->|Hne].
      * rewrite lookup_app_r, Nat.sub_diag by done. simpl.
        rewrite decide_True by done. split; [done|]. split.
        -- apply lookup_lt_is_Some. rewrite length_app. simpl. lia.
        -- by exists [].
      * rewrite lookup_ge_None_2 by (rewrite length_app; simpl; lia).
        rewrite decide_False by lia. split; [done|].
        apply lookup_ge_None_2. rewrite length_app. simpl. lia.
  - destruct (effect_client_frame e w c) as (out & Hin & Hout & Hopen & Hids & Hcl).
    { intros sid ->. done. }
    specialize (Hw c). unfold client_ok in *. rewrite Hin.
    specialize (Hids c). 
    destruct (heap w !! c) as [s|] eqn:Hs, (heap (effect e w) !! c) as [s'|] eqn:Hs';
      try done.
    + injection Hids as Hc Hi. destruct Hw as (Hcs & Hsome & rest & Hrest & Hfa).
      split; [congruence|]. split; [by apply Hcl|].
      exists (rest ++ out)%list. rewrite Hrest, Hi. split; [done|].
      by apply Forall_app.
    + destruct Hw as [Hempty Hnone]. destruct Hopen as [->|Hopen]; [|congruence].
      rewrite app_nil_r. split; [done|].
      apply eq_None_not_Some. rewrite Hcl. by rewrite Hnone.
Qed.

(** X6. In every run of the relay, the first message written to the client
    socket of a session is [session.created] with the identifier of that
    session, and no other [session.created] follows on that socket. *)
Theorem client_gets_session_created_first
    (apiKey : option string) (events : list Event) (r : nat) (s : ClientSession) :
  let w := snd (run events (boot apiKey)) in
  heap w !! r = Some s ->
  exists rest,
    client_inbox (clientWs s) w = SessionCreated (sessionId s) :: rest /\
    Forall (fun m => is_created m = false) rest.
Proof.
  rewrite run_effect. cbn [snd]. intros Hs.
  assert (forall c, client_ok (foldl (fun w e => effect e w) (boot apiKey) events) c)
    as Hok.
  { apply (foldl_invariant (fun w => forall c, client_ok w c)).
    - apply client_ok_effect.
    - intros c. unfold client_ok. simpl. done. }
  specialize (Hok r). unfold client_ok in Hok. rewrite Hs in Hok.
  destruct Hok as (-> & _ & Hrest). exact Hrest.
Qed.

(** * Messages and events, case by case *)

(** ** Client messages *)


(** X8. [session.start] with a credential in place: the configuration is
    stored in the session, one new upstream socket is created in state
    CONNECTING for this session and becomes the session's handle, and nothing
    is written yet to anyone; the other sessions, the sockets that existed,
    the pending timeouts, the registry and the client sockets stay as they
    were.  A handle the session had before is replaced; its socket is not
    closed. *)
Theorem session_start_attaches_a_connecting_socket
    (w : World) (r : nat) (s : ClientSession) (cfg : SessionConfig.t) :
  heap w !! r = Some s ->
  missing (OPENAI_API_KEY w) = false ->
  let w' := snd (handleClientMessage r (SessionStart cfg) w) in
  let ws := length (upstreams w) in
  fst (handleClientMessage r (SessionStart cfg) w) = Ok tt /\
  upstreams w' = (upstreams w ++ [mkUpstream CONNECTING r])%list /\
  heap w' !! r = Some (mkSession (clientWs s) (Some ws) (sessionId s) (Some cfg)) /\
  (forall r', r' <> r -> heap w' !! r' = heap w !! r') /\
  (forall old, old < ws -> upstreams w' !! old = upstreams w !! old) /\
  wire w' = wire w /\ timers w' = timers w /\
  sessions w' = sessions w /\ clients w' = clients w.
Proof.
  intros Hs Hkey. rewrite (handleClientMessage_effect w r s _ Hs).
  simpl. rewrite Hs, Hkey. simpl. repeat split.
  - by rewrite !list_lookup_alter_eq, Hs.
  - intros r' Hne. by rewrite !list_lookup_alter_ne.
  - intros old Hold. by apply lookup_app_l.
Qed.

(** X9. A client message is local to its session: whatever the message,
    the listener leaves the registry, the client sockets, the pending
    timeouts and the other session objects alone, writes to no other client,
    and neither writes to nor changes any upstream socket but the one the
    session has as its handle. *)
Theorem client_message_is_session_local
    (w : World) (r : nat) (s : ClientSession) (data : option ClientMessage) :
  heap w !! r = Some s ->
  let w' := snd (fire (ClientData r data) w) in
  sessions w' = sessions w /\
  clients w' = clients w /\
  timers w' = timers w /\
  (forall r', r' <> r -> heap w' !! r' = heap w !! r') /\
  (forall c, c <> clientWs s -> client_inbox c w' = client_inbox c w) /\
  (forall u, openaiWs s <> Some u ->
     upstream_inbox u w' = upstream_inbox u w /\
     (u < length (upstreams w) -> upstreams w' !! u = upstreams w !! u)).
Proof.
  intros Hs. rewrite fire_effect. cbn [snd].
  destruct data as [[cfg|audio| |]|]; simpl; unfold tell, send, set_handle, close_link;
    rewrite ?Hs; repeat case_match; simpl; repeat split; try done.
  all: try (intros r' Hne; by rewrite ?list_lookup_alter_ne).
  all: try (intros c Hne; rewrite client_inbox_emit; simpl;
            rewrite ?decide_False by done; apply app_nil_r).
  all: try (rewrite upstream_inbox_emit; simpl;
            rewrite ?decide_False by congruence; apply app_nil_r).
  all: try (intros Hlt; by apply lookup_app_l).
  all: try (intros _; apply list_lookup_alter_ne; congruence).
Qed.

(** ** Upstream events *)

(** X10. The [message] listener of an upstream socket never throws and
    answers one frame with at most one message to the client of the session:
    the translation of the event, sent through the guard of [sendToClient];
    a frame that is not JSON, or an event without translation, changes
    nothing.  No upstream event touches sessions, sockets or timeouts. *)
Theorem upstream_event_maps_to_at_most_one_message
    (w : World) (r : nat) (data : option Value) :
  onUpstreamMessage r data w
  = (Ok tt,
     match data ≫= translate with
     | Some m => tell r m w
     | None => w
     end).
Proof.
  rewrite onUpstreamMessage_effect. destruct data as [event|]; simpl; [|done].
  done.
Qed.

(** X11. [response.audio.delta]: the [delta] of the event is passed on
    unchanged as one [audio.output]; an event whose [delta] is missing or
    empty is dropped. *)
Theorem audio_delta_is_passed_through
    (w : World) (r : nat) (s : ClientSession) (event : Value) :
  heap w !! r = Some s ->
  clients w !! clientWs s = Some OPEN ->
  opt_prop event "type" = VStr "response.audio.delta" ->
  handleOpenAIEvent r event w
  = (Ok tt,
     if truthy (opt_prop event "delta")
     then emit (ToClient (clientWs s) (AudioOutput (opt_prop event "delta"))) w
     else w).
Proof.
  intros Hs Hopen Ht. rewrite (handleOpenAIEvent_dispatch w r s event _ Hs Ht).
  simpl. unfold bind, ret. destruct (truthy _); [|done].
  simpl. by apply sendToClient_open.
Qed.

(** X12. [response.audio_transcript.delta]: a non-empty [delta] becomes
    one [transcript.partial] of the assistant with that text and the
    [item_id] of the event, or "unknown" when the event has none; an event
    whose [delta] is missing or empty is dropped. *)
Theorem transcript_delta_becomes_partial_transcript
    (w : World) (r : nat) (s : ClientSession) (event : Value) :
  heap w !! r = Some s ->
  clients w !! clientWs s = Some OPEN ->
  opt_prop event "type" = VStr "response.audio_transcript.delta" ->
  handleOpenAIEvent r event w
  = (Ok tt,
     if truthy (opt_prop event "delta")
     then emit (ToClient (clientWs s)
                  (TranscriptPartial assistant (opt_prop event "delta")
                     (or_else (opt_prop event "item_id") (VStr "unknown")))) w
     else w).
Proof.
  intros Hs Hopen Ht. rewrite (handleOpenAIEvent_dispatch w r s event _ Hs Ht).
  simpl. unfold bind, ret. destruct (truthy _); [|done].
  simpl. by apply sendToClient_open.
Qed.

(** X13. An upstream [error] event is reported to the client as one
    [error] message carrying the [message] of the event's [error] object, or
    "Unknown error from AI" when there is none; the session keeps its
    upstream handle and the socket stays as it is. *)
Theorem upstream_error_is_forwarded
    (w : World) (r : nat) (s : ClientSession) (event : Value) :
  heap w !! r = Some s ->
  clients w !! clientWs s = Some OPEN ->
  opt_prop event "type" = VStr "error" ->
  let message := opt_prop (opt_prop event "error") "message" in
  handleOpenAIEvent r event w
  = (Ok tt,
     emit (ToClient (clientWs s)
             (Error (if truthy message then message
                     else VStr "Unknown error from AI"))) w) /\
  heap (snd (handleOpenAIEvent r event w)) = heap w /\
  upstreams (snd (handleOpenAIEvent r event w)) = upstreams w.
Proof.
  intros Hs Hopen Ht. rewrite (handleOpenAIEvent_dispatch w r s event _ Hs Ht).
  simpl. rewrite sendToClient_open by done. done.
Qed.

(** X14. Upstream data outside the six handled [type]s is dropped: a frame
    that is not JSON, an event whose [type] is not a string, and an event of
    any other [type] (the ignored ones and the unknown ones alike) leave the
    world as it was. *)
Theorem other_upstream_data_is_dropped
    (w : World) (r : nat) (data : option Value) :
  (forall event t, data = Some event -> opt_prop event "type" = VStr t ->
     t ∉ handled_types) ->
  onUpstreamMessage r data w = (Ok tt, w).
Proof.
  intros Hother. rewrite onUpstreamMessage_effect.
  destruct data as [event|]; [|done].
  assert (translate event = None) as ->; [|done].
  unfold translate. destruct (opt_prop event "type") as [| | | |t| |] eqn:Ht; try done.
  specialize (Hother event t eq_refl Ht).
  assert (forall h, h ∈ handled_types -> (t =? h) = false) as Hne.
  { intros h Hh. apply String.eqb_neq. by intros ->. }
  rewrite !Hne by (unfold handled_types; set_solver). done.
Qed.

(** ** When the upstream socket closes *)


(** X16. Ending a session that has a live upstream link tells the client
    [session.ended] twice: once by the dispatcher, and once more by the
    [close] listener when the [close] event of the link arrives. *)
Theorem session_end_with_link_tells_the_client_twice
    (w : World) (r ws : nat) (s : ClientSession) (up : UpstreamSocket) :
  heap w !! r = Some s ->
  openaiWs s = Some ws ->
  upstreams w !! ws = Some up ->
  owner up = r ->
  readyState up <> CLOSED ->
  clients w !! clientWs s = Some OPEN ->
  exists w',
    run [ClientData r (Some SessionEnd); UpstreamClosed ws] w = (Ok tt, w') /\
    client_inbox (clientWs s) w'
    = (client_inbox (clientWs s) w ++ [SessionEnded; SessionEnded])%list.
Proof.
  intros Hs Hws Hup Hown Hst Hopen. eexists. split; [apply run_effect|].
  cbn [foldl].
  assert (effect (ClientData r (Some SessionEnd)) w
          = emit (ToClient (clientWs s) SessionEnded)
              (set_handle r None (close_link ws w))) as ->.
  { simpl. rewrite Hs, Hws. unfold send. simpl. by rewrite decide_True. }
  set (w1 := emit _ _).
  assert (upstreams w1 !! ws = Some (set_readyState (close_state (readyState up)) up))
    as Hup1 by (subst w1; simpl; by rewrite list_lookup_alter_eq, Hup).
  assert (heap w1 !! r = Some (set_openaiWs None s)) as Hs1
    by (subst w1; simpl; by rewrite list_lookup_alter_eq, Hs).
  assert (clients w1 = clients w) as Hc1 by done.
  unfold effect. rewrite Hup1.
  rewrite decide_False by (by destruct (readyState up)).
  cbn [owner set_readyState]. rewrite Hown.
  unfold tell, set_handle, become. cbn [heap set_upstreams set_heap].
  rewrite Hs1. cbn [clientWs set_openaiWs].
  unfold send. cbn [clients set_upstreams]. rewrite Hc1, decide_True by done.
  unfold client_inbox. subst w1. simpl. rewrite omap_app. simpl.
  rewrite decide_True by done. simpl.
  rewrite omap_app. simpl. rewrite decide_True by done. by rewrite <- app_assoc.
Qed.

(** ** The sample converter *)

Lemma floatTo16BitPCM_prefix (xs : list Number) (n : nat) :
  n <= length xs ->
  foldl (fun int16Array i =>
           match xs !! i with
           | Some x => <[i := pcm16_of x]> int16Array
           | None => int16Array
           end)
        (replicate (length xs) 0%Z) (seq 0 n)
  = (map pcm16_of (take n xs) ++ replicate (length xs - n) 0%Z)%list.
Proof.
  induction n as [|n IH]; intros Hn.
  - simpl. by rewrite Nat.sub_0_r.
  - rewrite seq_S, foldl_app, IH by lia. simpl.
    destruct (lookup_lt_is_Some_2 xs n ltac:(lia)) as [x Hx]. rewrite Hx.
    rewrite (take_S_r _ _ _ Hx), map_app, <- app_assoc. simpl.
    replace (length xs - n) with (S (length xs - S n)) by lia. simpl.
    rewrite insert_app_r_alt by (rewrite length_map, length_take; lia).
    rewrite length_map, length_take.
    replace (n - n `min` length xs) with 0 by lia. done.
Qed.

(** X17. The loop of [floatTo16BitPCM] writes every slot once: the result
    is the per-sample conversion of the input, element by element, and so
    has the length of the input. *)
Theorem floatTo16BitPCM_converts_every_sample (xs : list Number) :
  floatTo16BitPCM xs = map pcm16_of xs.
Proof.
  unfold floatTo16BitPCM. rewrite floatTo16BitPCM_prefix by lia.
  rewrite firstn_all, Nat.sub_diag. simpl. by rewrite app_nil_r.
Qed.

Lemma Qle_bool_false (p q : Q) : Qle_bool p q = false -> (q < p)%Q.
Proof.
  intros H. apply Qnot_le_lt. intros Hle. apply Qle_bool_iff in Hle. congruence.
Qed.

Lemma scale_bounds (q : Q) (k : Z) :
  (0 < k)%Z -> (-1 <= q)%Q -> (q <= 1)%Q ->
  (inject_Z (- k) <= q * inject_Z k)%Q /\ (q * inject_Z k <= inject_Z k)%Q.
Proof.
  intros Hk Hlo Hhi. destruct q as [n d].
  unfold Qle, Qmult, inject_Z in *. simpl in *. nia.
Qed.

Lemma scale_sign (q : Q) (k : Z) :
  (0 < k)%Z ->
  ((0 <= q)%Q -> (0 <= q * inject_Z k)%Q) /\
  ((q < 0)%Q -> (q * inject_Z k <= 0)%Q).
Proof.
  intros Hk. destruct q as [n d].
  unfold Qle, Qlt, Qmult, inject_Z in *. simpl in *. nia.
Qed.

Lemma ToInt16_in_range (q : Q) :
  (-32768 <= truncate q <= 32767)%Z -> ToInt16 (Real q) = truncate q.
Proof.
  intros H. unfold ToInt16. cbv zeta.
  destruct (Z_lt_le_dec (truncate q) 0) as [Hneg|Hpos].
  - rewrite <- (Z.mod_add _ 1) by lia.
    rewrite Z.mod_small by lia.
    destruct (Z.leb_spec 32768 (truncate q + 1 * 65536)); lia.
  - rewrite Z.mod_small by lia.
    destruct (Z.leb_spec 32768 (truncate q)); lia.
Qed.

Lemma pcm16_of_finite (q : Q) :
  pcm16_of (Real q) =
  if Qle_bool 1 q then 32767%Z
  else if Qle_bool q (-1) then (-32768)%Z
  else if Qle_bool 0 q then Qfloor (q * 32767)
  else Qceiling (q * 32768).
Proof.
  unfold pcm16_of, Math_min, Math_max.
  destruct (Qle_bool 1 q) eqn:Hhi; [done|].
  apply Qle_bool_false in Hhi.
  destruct (Qle_bool q (-1)) eqn:Hlo.
  { apply Qle_bool_iff in Hlo.
    destruct (Qle_bool (-1) q) eqn:Hlo'; [|done].
    apply Qle_bool_iff in Hlo'.
    unfold negative_number.
    destruct (Qle_bool 0 q) eqn:H0.
    { apply Qle_bool_iff in H0. exfalso.
      apply (Qlt_irrefl 0). eapply Qle_lt_trans; [apply H0|].
      eapply Qle_lt_trans; [apply Hlo|]. done. }
    simpl negb. cbv iota. unfold times.
    assert (q * inject_Z 32768 == inject_Z (-32768))%Q as Heq.
    { assert (q == -1)%Q as -> by (by apply Qle_antisym). done. }
    rewrite ToInt16_in_range; unfold truncate.
    all: destruct (Qle_bool 0 (q * inject_Z 32768)) eqn:H1;
      rewrite ?(Qfloor_comp _ _ Heq), ?(Qceiling_comp _ _ Heq),
        ?Qfloor_Z, ?Qceiling_Z; lia. }
  apply Qle_bool_false in Hlo.
  assert (Qle_bool (-1) q = true) as ->
    by (apply Qle_bool_iff; by apply Qlt_le_weak).
  unfold negative_number, times.
  destruct (scale_bounds q 32767 ltac:(lia)) as [Hb1 Hb2];
    [by apply Qlt_le_weak|by apply Qlt_le_weak|].
  destruct (scale_bounds q 32768 ltac:(lia)) as [Hc1 Hc2];
    [by apply Qlt_le_weak|by apply Qlt_le_weak|].
  destruct (Qle_bool 0 q) eqn:H0; simpl negb; cbv iota.
  - apply Qle_bool_iff in H0.
    pose proof (proj1 (scale_sign q 32767 ltac:(lia)) H0) as Hs.
    assert (truncate (q * inject_Z 32767) = Qfloor (q * 32767)) as Ht.
    { unfold truncate. by rewrite (proj2 (Qle_bool_iff _ _) Hs). }
    rewrite ToInt16_in_range; [done|]. rewrite Ht.
    apply Qfloor_resp_le in Hs, Hb2.
    change (Qfloor 0) with 0%Z in Hs. rewrite Qfloor_Z in Hb2.
    change (inject_Z 32767) with (32767 : Q) in *. lia.
  - apply Qle_bool_false in H0.
    pose proof (proj2 (scale_sign q 32768 ltac:(lia)) H0) as Hs.
    assert (truncate (q * inject_Z 32768) = Qceiling (q * 32768)) as Ht.
    { unfold truncate. change (q * 32768)%Q with (q * inject_Z 32768)%Q.
      destruct (Qle_bool 0 (q * inject_Z 32768)) eqn:H1; [|done].
      apply Qle_bool_iff in H1.
      assert (q * inject_Z 32768 == inject_Z 0)%Q as Heq by (by apply Qle_antisym).
      by rewrite (Qfloor_comp _ _ Heq), (Qceiling_comp _ _ Heq), Qfloor_Z, Qceiling_Z. }
    rewrite ToInt16_in_range; [done|]. rewrite Ht.
    apply Qceiling_resp_le in Hs, Hc1.
    change (Qceiling 0) with 0%Z in Hs. rewrite Qceiling_Z in Hc1.
    change (inject_Z 32768) with (32768 : Q) in *. lia.
Qed.

Lemma ToInt16_range (v : Number) : (-32768 <= ToInt16 v <= 32767)%Z.
Proof.
  destruct v as [| |q]; simpl; [lia|lia|].
  pose proof (Z.mod_pos_bound (truncate q) 65536 ltac:(lia)).
  destruct (Z.leb_spec 32768 (truncate q mod 65536)); lia.
Qed.

(** X18. The per-sample conversion clips and never wraps around: a sample
    of 1 or more, [+Infinity] included, becomes 32767; a sample of -1 or
    less, [-Infinity] included, becomes -32768; a sample in between is scaled
    by [0x7fff] when it is not negative and by [0x8000] when it is, and
    rounded towards zero, the store into the [Int16Array] changing nothing
    more; not-a-number becomes 0. *)
Theorem pcm16_of_clips_and_never_wraps (x : Number) :
  pcm16_of x =
  match x with
  | NaN => 0%Z
  | Infinity negative => if negative then (-32768)%Z else 32767%Z
  | Real q =>
      if Qle_bool 1 q then 32767%Z
      else if Qle_bool q (-1) then (-32768)%Z
      else if Qle_bool 0 q then Qfloor (q * 32767)
      else Qceiling (q * 32768)
  end.
Proof.
  destruct x as [|[]|q]; [done|done|done|]. apply pcm16_of_finite.
Qed.

(** X19. The per-sample conversion is monotone on finite samples: a larger
    sample never gets a smaller PCM value, across the two scale factors
    too. *)
Theorem pcm16_of_is_monotone (p q : Q) :
  (p <= q)%Q -> (pcm16_of (Real p) <= pcm16_of (Real q))%Z.
Proof.
  intros Hpq.
  pose proof (ToInt16_range) as Hrange.
  assert (forall x, (-32768 <= pcm16_of x <= 32767)%Z) as Hr
    by (intros x; apply Hrange).
  destruct (Qle_bool 1 q) eqn:Hq1.
  { rewrite (pcm16_of_finite q), Hq1. apply Hr. }
  destruct (Qle_bool p (-1)) eqn:Hp1.
  { rewrite (pcm16_of_finite p), Hp1.
    specialize (Hr (Real q)).
    destruct (Qle_bool 1 p) eqn:H; [|lia].
    apply Qle_bool_iff in H, Hp1. exfalso. apply (Qlt_irrefl 1).
    eapply Qle_lt_trans; [apply H|]. eapply Qle_lt_trans; [apply Hp1|done]. }
  rewrite !pcm16_of_finite, Hq1, Hp1.
  apply Qle_bool_false in Hq1, Hp1.
  assert (Qle_bool 1 p = false) as ->.
  { destruct (Qle_bool 1 p) eqn:H; [|done]. apply Qle_bool_iff in H.
    exfalso. apply (Qlt_irrefl 1). eapply Qle_lt_trans; [apply H|].
    eapply Qle_lt_trans; [apply Hpq|done]. }
  assert (Qle_bool q (-1) = false) as ->.
  { destruct (Qle_bool q (-1)) eqn:H; [|done]. apply Qle_bool_iff in H.
    exfalso. apply (Qlt_irrefl (-1)). eapply Qlt_le_trans; [apply Hp1|].
    eapply Qle_trans; [apply Hpq|done]. }
  destruct (Qle_bool 0 p) eqn:Hp0.
  - apply Qle_bool_iff in Hp0.
    assert (Qle_bool 0 q = true) as ->
      by (apply Qle_bool_iff; by eapply Qle_trans).
    apply Qfloor_resp_le, Qmult_le_compat_r; done.
  - apply Qle_bool_false in Hp0.
    destruct (Qle_bool 0 q) eqn:Hq0.
    + apply Qle_bool_iff in Hq0.
      pose proof (proj2 (scale_sign p 32768 ltac:(lia)) Hp0) as Hs.
      pose proof (proj1 (scale_sign q 32767 ltac:(lia)) Hq0) as Ht.
      apply Qceiling_resp_le in Hs. apply Qfloor_resp_le in Ht.
      change (Qceiling 0) with 0%Z in Hs. change (Qfloor 0) with 0%Z in Ht.
      change (inject_Z 32767) with (32767 : Q) in *.
      change (inject_Z 32768) with (32768 : Q) in *. lia.
    + apply Qceiling_resp_le, Qmult_le_compat_r; done.
Qed.

(** ** The further theorems at work on the sample runs *)

Lemma connect_then_close_restores_the_registry_witness :
  sessions (ready false) !! "session_2" = None
  /\ sessions (snd (run (Connection "session_2"
                          :: [ClientData 1 (Some (SessionStart (demo_config true)));
                              UpstreamOpened 1; TimerFired 1;
                              ClientData 1 (Some SessionEnd)]
                          ++ [ClientClosed 1])%list
                      (ready false)))
     = sessions (ready false).
Proof.
  split; [reflexivity|].
  apply (connect_then_close_restores_the_registry "session_2" _ (ready false)).
  - reflexivity.
  - intros e He. repeat (apply elem_of_cons in He as [->|He]; [by split|]).
    by apply elem_of_nil in He.
Defined.

Lemma registry_holds_live_sessions_only_witness :
  sessions (snd (run [Connection "session_1"; ClientClosing 0] (boot (Some "sk-test"))))
    !! "session_1"
  = Some 0
  /\ exists s st,
       heap (snd (run [Connection "session_1"; ClientClosing 0] (boot (Some "sk-test"))))
         !! 0 = Some s
       /\ sessionId s = "session_1"
       /\ clients (snd (run [Connection "session_1"; ClientClosing 0]
                          (boot (Some "sk-test"))))
          !! clientWs s = Some st
       /\ (st = OPEN \/ st = CLOSING).
Proof.
  split; [reflexivity|].
  apply (registry_holds_live_sessions_only
           (Some "sk-test") [Connection "session_1"; ClientClosing 0] "session_1" 0).
  reflexivity.
Defined.

Lemma no_credential_no_upstream_witness :
  missing None = true
  /\ upstreams (snd (run [Connection "session_1";
                          ClientData 0 (Some (SessionStart (demo_config true)));
                          ClientData 0 (Some (AudioInput "AAAA"))]
                       (boot None))) = [].
Proof.
  split; [reflexivity|].
  exact (proj1 (no_credential_no_upstream None _ eq_refl)).
Defined.

Lemma client_gets_session_created_first_witness :
  heap (ready true) !! 0 = Some (demo_session true)
  /\ exists rest,
       client_inbox 0 (ready true) = SessionCreated "session_1" :: rest
       /\ Forall (fun m => is_created m = false) rest.
Proof.
  split; [reflexivity|].
  exact (client_gets_session_created_first
           (Some "sk-test")
           [Connection "session_1";
            ClientData 0 (Some (SessionStart (demo_config true)));
            UpstreamOpened 0]
           0 (demo_session true) eq_refl).
Defined.


Lemma session_start_attaches_a_connecting_socket_witness :
  heap (connected (Some "sk-test")) !! 0 = Some (mkSession 0 None "session_1" None)
  /\ missing (OPENAI_API_KEY (connected (Some "sk-test"))) = false
  /\ upstreams (snd (handleClientMessage 0 (SessionStart (demo_config false))
                       (connected (Some "sk-test"))))
     = (upstreams (connected (Some "sk-test")) ++ [mkUpstream CONNECTING 0])%list.
Proof.
  split; [reflexivity|]. split; [reflexivity|].
  exact (proj1 (proj2 (session_start_attaches_a_connecting_socket
                         (connected (Some "sk-test")) 0
                         (mkSession 0 None "session_1" None) (demo_config false)
                         eq_refl eq_refl))).
Defined.

Lemma client_message_is_session_local_witness :
  heap (ready false) !! 0 = Some (demo_session false)
  /\ sessions (snd (fire (ClientData 0 (Some SessionEnd)) (ready false)))
     = sessions (ready false).
Proof.
  split; [reflexivity|].
  exact (proj1 (client_message_is_session_local
                  (ready false) 0 (demo_session false) (Some SessionEnd) eq_refl)).
Defined.

Lemma audio_delta_is_passed_through_witness :
  heap (ready false) !! 0 = Some (demo_session false)
  /\ clients (ready false) !! clientWs (demo_session false) = Some OPEN
  /\ handleOpenAIEvent 0
       (VObj [("type", VStr "response.audio.delta"); ("delta", VStr "UklGRg==")])
       (ready false)
     = (Ok tt, emit (ToClient 0 (AudioOutput (VStr "UklGRg=="))) (ready false)).
Proof.
  split; [reflexivity|]. split; [reflexivity|].
  exact (audio_delta_is_passed_through
           (ready false) 0 (demo_session false)
           (VObj [("type", VStr "response.audio.delta"); ("delta", VStr "UklGRg==")])
           eq_refl eq_refl eq_refl).
Defined.

Lemma transcript_delta_becomes_partial_transcript_witness :
  heap (ready false) !! 0 = Some (demo_session false)
  /\ clients (ready false) !! clientWs (demo_session false) = Some OPEN
  /\ handleOpenAIEvent 0
       (VObj [("type", VStr "response.audio_transcript.delta"); ("delta", VStr "Hel")])
       (ready false)
     = (Ok tt,
        emit (ToClient 0 (TranscriptPartial assistant (VStr "Hel") (VStr "unknown")))
          (ready false)).
Proof.
  split; [reflexivity|]. split; [reflexivity|].
  exact (transcript_delta_becomes_partial_transcript
           (ready false) 0 (demo_session false)
           (VObj [("type", VStr "response.audio_transcript.delta");
                  ("delta", VStr "Hel")])
           eq_refl eq_refl eq_refl).
Defined.

Lemma upstream_error_is_forwarded_witness :
  heap (ready false) !! 0 = Some (demo_session false)
  /\ clients (ready false) !! clientWs (demo_session false) = Some OPEN
  /\ handleOpenAIEvent 0
       (VObj [("type", VStr "error");
              ("error", VObj [("message", VStr "Rate limit reached")])])
       (ready false)
     = (Ok tt, emit (ToClient 0 (Error (VStr "Rate limit reached"))) (ready false)).
Proof.
  split; [reflexivity|]. split; [reflexivity|].
  exact (proj1 (upstream_error_is_forwarded
                  (ready false) 0 (demo_session false)
                  (VObj [("type", VStr "error");
                         ("error", VObj [("message", VStr "Rate limit reached")])])
                  eq_refl eq_refl eq_refl)).
Defined.

Lemma other_upstream_data_is_dropped_witness :
  ("session.updated" ∉ handled_types)
  /\ onUpstreamMessage 0 (Some (VObj [("type", VStr "session.updated")])) (ready false)
     = (Ok tt, ready false).
Proof.
  assert ("session.updated" ∉ handled_types) as Hother.
  { intros H. unfold handled_types in H.
    repeat (apply elem_of_cons in H as [H|H]; [discriminate|]).
    by apply elem_of_nil in H. }
  split; [exact Hother|].
  apply other_upstream_data_is_dropped.
  intros event t [= <-] [= <-]. exact Hother.
Defined.


Lemma session_end_with_link_tells_the_client_twice_witness :
  heap (ready false) !! 0 = Some (demo_session false)
  /\ upstreams (ready false) !! 0 = Some (mkUpstream OPEN 0)
  /\ clients (ready false) !! 0 = Some OPEN
  /\ exists w',
       run [ClientData 0 (Some SessionEnd); UpstreamClosed 0] (ready false) = (Ok tt, w')
       /\ client_inbox 0 w'
          = (client_inbox 0 (ready false) ++ [SessionEnded; SessionEnded])%list.
Proof.
  split; [reflexivity|]. split; [reflexivity|]. split; [reflexivity|].
  exact (session_end_with_link_tells_the_client_twice
           (ready false) 0 0 (demo_session false) (mkUpstream OPEN 0)
           eq_refl eq_refl eq_refl eq_refl ltac:(discriminate) eq_refl).
Defined.

Lemma pcm16_of_is_monotone_witness :
  (- (1 # 2) <= 1 # 2)%Q
  /\ (pcm16_of (Real (- (1 # 2))) <= pcm16_of (Real (1 # 2)))%Z.
Proof.
  split; [unfold Qle; simpl; lia|].
  apply pcm16_of_is_monotone. unfold Qle; simpl; lia.
Defined.
